(** * The physical planner of [plan]: a shallow embedding

    Source files: [plan/physical.go] (the physical planner, its options, the
    universal conversion rule, physical nodes) and the plan formatter
    ([Formatted], [FormatTitle], [formatter.Format]).

    Go pointers to plan nodes and to plan specs are indices into two arenas
    held in a [Store]; a Go panic is the outcome [Panic]; a Go pair
    [(value, error)] is a pair of options. *)

From stdpp Require Import base option list gmap strings.
From Stdlib Require Import ZArith Lia.

#[local] Set Warnings "-clear-no-such-hyp".

Local Open Scope Z_scope.
Local Open Scope nat_scope.

(** ** Basic types *)

Definition NodeID := string.
Definition Error := string.
Definition ProcedureKind := string.

(** A pointer to a plan node: an index into the node arena.  An index outside
    the arena denotes no node, like Go's nil. *)
Abbreviation Ptr := nat.

(** A pointer to a [PlanSpec]: an index into the arena of plan specs. *)
Abbreviation SpecPtr := nat.

(** Modelled from the spec: [Cost] and [Statistics] are declared in another
    file of the package; the spec describes a scalar cost and an opaque
    summary of an operator's output. *)
Definition Cost := Z.
Definition Statistics := Z.

(** Modelled from the spec: the embedded [bounds] struct is declared in
    another file of the package; the spec describes the start and stop of the
    interval a node's output covers.  [None] is a node whose bounds are not
    set. *)
Definition bounds := option (Z * Z).

(** Modelled from the spec: the embedded [edges] struct, an ordered collection
    of the predecessors a node depends on and of the successors that depend on
    it. *)
Record edges := mkEdges {
  predecessors : list Ptr;
  successors : list Ptr
}.

Definition noEdges : edges := mkEdges [] [].

(** [PhysicalAttributes] is an empty struct in the source. *)
Inductive PhysicalAttributes := mkPhysicalAttributes.

(** ** Procedure specs and their capabilities

    A procedure spec is a Go interface value.  The record lists the methods
    the dynamic value has: [Kind] always, [Cost] when it implements
    [PhysicalProcedureSpec], [PostPhysicalValidate] when it implements
    [PostPhysicalValidator].  ([Copy] is not modelled; nothing below clones a
    node.) *)
Record ProcedureSpec := mkProcedureSpec {
  Kind : ProcedureKind;
  CostMethod : option (list Statistics → Cost * Statistics);
  PostPhysicalValidate : option (NodeID → option Error)
}.

(** The static type [PhysicalProcedureSpec]: the same dynamic value, seen
    through the interface that has [Cost]. *)
Record PhysicalProcedureSpec := mkPhysicalProcedureSpec {
  dynSpec : ProcedureSpec;
  specCost : list Statistics → Cost * Statistics
}.

(** The type assertion [spec.(PhysicalProcedureSpec)]. *)
Definition asPhysicalProcedureSpec (spec : ProcedureSpec) : option PhysicalProcedureSpec :=
  match CostMethod spec with
  | Some c => Some (mkPhysicalProcedureSpec spec c)
  | None => None
  end.

(** The type assertion [spec.(PostPhysicalValidator)]. *)
Definition asPostPhysicalValidator (spec : ProcedureSpec) : option (NodeID → option Error) :=
  PostPhysicalValidate spec.

(** ** Plan nodes *)

(** Modelled from the spec: the logical node is declared in another file of
    the package; the conversion rule reads its fields [bounds], [id] and
    [Spec], and it has edges like the physical node. *)
Record LogicalPlanNode := mkLogicalPlanNode {
  l_edges : edges;
  l_bounds : bounds;
  l_id : NodeID;
  l_Spec : ProcedureSpec
}.

Record PhysicalPlanNode := mkPhysicalPlanNode {
  p_edges : edges;
  p_bounds : bounds;
  p_id : NodeID;
  p_Spec : PhysicalProcedureSpec;
  RequiredAttrs : list PhysicalAttributes;
  OutputAttrs : PhysicalAttributes
}.

(** Any other implementation of the [PlanNode] interface. *)
Record ForeignPlanNode := mkForeignPlanNode {
  f_edges : edges;
  f_bounds : bounds;
  f_id : NodeID;
  f_Spec : ProcedureSpec
}.

(** The dynamic type behind a [PlanNode] interface value. *)
Inductive PlanNode :=
  | Logical (ln : LogicalPlanNode)
  | Physical (ppn : PhysicalPlanNode)
  | Foreign (fn : ForeignPlanNode).

Definition ID (pn : PlanNode) : NodeID :=
  match pn with
  | Logical ln => l_id ln
  | Physical ppn => p_id ppn
  | Foreign fn => f_id fn
  end.

Definition procedureSpec (pn : PlanNode) : ProcedureSpec :=
  match pn with
  | Logical ln => l_Spec ln
  | Physical ppn => dynSpec (p_Spec ppn)
  | Foreign fn => f_Spec fn
  end.

Definition Bounds (pn : PlanNode) : bounds :=
  match pn with
  | Logical ln => l_bounds ln
  | Physical ppn => p_bounds ppn
  | Foreign fn => f_bounds fn
  end.

Definition nodeEdges (pn : PlanNode) : edges :=
  match pn with
  | Logical ln => l_edges ln
  | Physical ppn => p_edges ppn
  | Foreign fn => f_edges fn
  end.

Definition Predecessors (pn : PlanNode) : list Ptr := predecessors (nodeEdges pn).
Definition Successors (pn : PlanNode) : list Ptr := successors (nodeEdges pn).

Definition setEdges (e : edges) (pn : PlanNode) : PlanNode :=
  match pn with
  | Logical ln => Logical (mkLogicalPlanNode e (l_bounds ln) (l_id ln) (l_Spec ln))
  | Physical ppn =>
      Physical (mkPhysicalPlanNode e (p_bounds ppn) (p_id ppn) (p_Spec ppn)
                  (RequiredAttrs ppn) (OutputAttrs ppn))
  | Foreign fn => Foreign (mkForeignPlanNode e (f_bounds fn) (f_id fn) (f_Spec fn))
  end.

(** The type assertion of [pn] to a pointer to [PhysicalPlanNode]. *)
Definition isPhysical (pn : PlanNode) : bool :=
  match pn with Physical _ => true | _ => false end.

(** The type assertion of [pn] to a pointer to [LogicalPlanNode]. *)
Definition isLogical (pn : PlanNode) : bool :=
  match pn with Logical _ => true | _ => false end.

(** ** Plan specs and the store *)

(** Modelled from the spec: the resources of a plan; the planner reads and
    writes the two quotas. *)
Record ResourceManagement := mkResources {
  ConcurrencyQuota : Z;
  MemoryBytesQuota : Z
}.

(** Modelled from the spec: a plan graph is a set of root nodes and its
    resources; every other node is reached from a root. *)
Record PlanSpec := mkPlanSpec {
  Roots : gset Ptr;
  Resources : ResourceManagement
}.

Record Store := mkStore {
  nodes : list PlanNode;
  plans : list PlanSpec
}.

(** ** Computations: state passing with panics *)

Inductive outcome (A : Type) :=
  | Ret (a : A)
  | Panic.
Arguments Ret {A} a.
Arguments Panic {A}.

Definition M (S A : Type) : Type := S → outcome (A * S).

Definition ret {S A} (a : A) : M S A := λ s, Ret (a, s).

Definition bind {S A B} (m : M S A) (k : A → M S B) : M S B :=
  λ s, match m s with
       | Ret (a, s') => k a s'
       | Panic => Panic
       end.

Definition panic {S A} : M S A := λ _, Panic.

Declare Scope go_scope.
Delimit Scope go_scope with go.
Notation "x <- m ;; k" := (bind m (λ x, k))
  (at level 100, m at next level, right associativity) : go_scope.
Notation "m ;; k" := (bind m (λ _, k))
  (at level 100, right associativity) : go_scope.
Local Open Scope go_scope.

(** A state that holds the store: the store itself, or the store together
    with the local variables of a running function. *)
Class HasStore (S : Type) := theStore : S → Store.
Global Instance Store_HasStore : HasStore Store := λ s, s.

(** Dereferencing a node pointer; a nil pointer panics. *)
Definition getNode {S} `{HasStore S} (pn : Ptr) : M S PlanNode :=
  λ s, match nodes (theStore s) !! pn with
       | Some n => Ret (n, s)
       | None => Panic
       end.

Definition getPlan {S} `{HasStore S} (p : SpecPtr) : M S PlanSpec :=
  λ s, match plans (theStore s) !! p with
       | Some ps => Ret (ps, s)
       | None => Panic
       end.

Definition setPlan (p : SpecPtr) (ps : PlanSpec) : M Store unit :=
  λ s, Ret (tt, mkStore (nodes s) (<[p := ps]> (plans s))).

(** Taking the address of a new node: a fresh cell at the end of the arena. *)
Definition newNode (n : PlanNode) : M Store Ptr :=
  λ s, Ret (length (nodes s), mkStore (nodes s ++ [n]) (plans s)).

(** A possibly nil pointer to a plan spec, about to be dereferenced. *)
Definition nonNil {S} (p : option SpecPtr) : M S SpecPtr :=
  match p with
  | Some t => ret t
  | None => panic
  end.

(** ** Graph primitives *)

Definition replacePtr (old new : Ptr) (l : list Ptr) : list Ptr :=
  (λ q, if decide (q = old) then new else q) <$> l.

Definition mapSuccessors (f : list Ptr → list Ptr) (pn : PlanNode) : PlanNode :=
  setEdges (mkEdges (Predecessors pn) (f (Successors pn))) pn.

Definition mapPredecessors (f : list Ptr → list Ptr) (pn : PlanNode) : PlanNode :=
  setEdges (mkEdges (f (Predecessors pn)) (Successors pn)) pn.

(** Modelled from the spec: [ReplaceNode] is defined in another file of the
    package.  It rewires every edge that pointed to [old] to point to [new] instead, on
    both ends: in the successor list of each predecessor of [old] and in the
    predecessor list of each successor of [old]; [new] takes over the edges of
    [old]; then [old] is detached. *)
Definition ReplaceNode (old new : Ptr) (h : list PlanNode) : list PlanNode :=
  match h !! old with
  | None => h
  | Some o =>
      let h1 := foldl (λ acc pred, alter (mapSuccessors (replacePtr old new)) pred acc)
                  h (Predecessors o) in
      let h2 := foldl (λ acc succ, alter (mapPredecessors (replacePtr old new)) succ acc)
                  h1 (Successors o) in
      let h3 := alter (setEdges (nodeEdges o)) new h2 in
      alter (setEdges noEdges) old h3
  end.

Definition replaceNode (old new : Ptr) : M Store unit :=
  λ s, Ret (tt, mkStore (ReplaceNode old new (nodes s)) (plans s)).

(** One descent of the bottom-up walk.  The state is the set of nodes entered
    so far and the nodes left so far, in the order they were left.  A node is
    entered at most once; it is left after all its predecessors. *)
Fixpoint walk (fuel : nat) (h : list PlanNode) (pn : Ptr)
    (st : gset Ptr * list Ptr) : gset Ptr * list Ptr :=
  match fuel with
  | 0 => st
  | S k =>
      if decide (pn ∈ st.1) then st
      else match h !! pn with
           | None => st
           | Some n =>
               let st' := foldl (λ acc q, walk k h q acc) ({[pn]} ∪ st.1, st.2) (Predecessors n) in
               (st'.1, st'.2 ++ [pn])
           end
  end.

(** Modelled from the spec: the order in which [BottomUpWalk] visits the
    nodes: every node once, predecessors before successors, starting from the
    roots.  A descent is never deeper than the number of nodes. *)
Definition bottomUpOrder (h : list PlanNode) (roots : gset Ptr) : list Ptr :=
  (foldl (λ acc r, walk (S (length h)) h r acc) (∅, []) (elements roots)).2.

Fixpoint visitAll {S} (f : Ptr → M S (option Error)) (l : list Ptr) : M S (option Error) :=
  match l with
  | [] => ret None
  | p :: l' =>
      err <- f p ;;
      match err with
      | Some e => ret (Some e)
      | None => visitAll f l'
      end
  end.

(** Modelled from the spec: [PlanSpec.BottomUpWalk] is defined in another
    file of the package.  It visits the nodes in bottom-up order and aborts
    the walk on the first error returned by the visitor.  The order is that
    of the graph as the walk finds it; no visitor of this package changes an
    edge. *)
Definition BottomUpWalk {S} `{HasStore S} (plan : SpecPtr)
    (f : Ptr → M S (option Error)) : M S (option Error) :=
  ps <- getPlan plan ;;
  λ s, visitAll f (bottomUpOrder (nodes (theStore s)) (Roots ps)) s.

(** A node is reachable when a path of predecessor edges leads to it from a
    root. *)
Inductive reachable (h : list PlanNode) (roots : gset Ptr) : Ptr → Prop :=
  | reachable_root r : r ∈ roots → reachable h roots r
  | reachable_pred p n q :
      reachable h roots p → h !! p = Some n → q ∈ Predecessors n → reachable h roots q.

(** ** Patterns and rules *)

(** Modelled from the spec: a pattern is a predicate over a node; [Any]
    matches every node. *)
Record Pattern := mkPattern { Match : PlanNode → bool }.

Definition Any : Pattern := mkPattern (λ _, true).

(** The [Rule] interface: a name, a pattern and a rewrite that returns the
    possibly new node, whether anything changed, and an error. *)
Record Rule := mkRule {
  ruleName : string;
  rulePattern : Pattern;
  ruleRewrite : Ptr → M Store (Ptr * bool * option Error)
}.

(** ** The universal conversion rule *)

Module physicalConverterRule.

Definition Name : string := "physicalConverterRule".

Definition Pattern : Pattern := Any.

Definition Rewrite (pn : Ptr) : M Store (Ptr * bool * option Error) :=
  λ s,
    match nodes s !! pn with
    | Some (Physical _) =>
        (* Already converted *)
        Ret ((pn, false, None), s)
    | Some (Logical ln) =>
        match asPhysicalProcedureSpec (l_Spec ln) with
        | None =>
            (* A different rule will do the conversion *)
            Ret ((pn, false, None), s)
        | Some pspec =>
            (new <- newNode (Physical (mkPhysicalPlanNode noEdges (l_bounds ln)
                                         ("phys_" +:+ l_id ln) pspec [] mkPhysicalAttributes)) ;;
             replaceNode pn new ;;
             ret (new, true, None)) s
        end
    | _ =>
        (* the type assertion to a logical node fails *)
        Panic
    end.

End physicalConverterRule.

Definition converterRule : Rule :=
  mkRule physicalConverterRule.Name physicalConverterRule.Pattern physicalConverterRule.Rewrite.

(** ** The heuristic planner's rule set *)

(** Modelled from the spec: the heuristic planner holds the ordered
    collection of the active rules. *)
Record heuristicPlanner := mkHeuristicPlanner { rules : list Rule }.

Definition newHeuristicPlanner : heuristicPlanner := mkHeuristicPlanner [].

(** Modelled from the spec: [addRules] appends a rule, or overwrites the rule
    that has the same name. *)
Definition addRule (r : Rule) (rs : list Rule) : list Rule :=
  if bool_decide (ruleName r ∈ ruleName <$> rs)
  then (λ r', if decide (ruleName r' = ruleName r) then r else r') <$> rs
  else rs ++ [r].

Definition addRules (new : list Rule) (hp : heuristicPlanner) : heuristicPlanner :=
  mkHeuristicPlanner (foldl (λ acc r, addRule r acc) (rules hp) new).

(** Modelled from the spec: [clearRules] empties the rule set. *)
Definition clearRules (hp : heuristicPlanner) : heuristicPlanner := mkHeuristicPlanner [].

(** ** The physical planner *)

Record physicalPlanner := mkPhysicalPlanner {
  heuristic : heuristicPlanner;
  defaultMemoryLimit : Z;
  disableValidation : bool
}.

(** An option is a function applied to the planner under construction. *)
Definition PhysicalOption := physicalPlanner → physicalPlanner.

Definition WithDefaultMemoryLimit (memBytes : Z) : PhysicalOption :=
  λ p, mkPhysicalPlanner (heuristic p) memBytes (disableValidation p).

Definition OnlyPhysicalRules (rs : list Rule) : PhysicalOption :=
  λ pp, mkPhysicalPlanner (addRules rs (clearRules (heuristic pp)))
          (defaultMemoryLimit pp) (disableValidation pp).

Definition DisableValidation : PhysicalOption :=
  λ p, mkPhysicalPlanner (heuristic p) (defaultMemoryLimit p) true.

Definition MaxInt64 : Z := 9223372036854775807%Z.

(** The double quote character and the line feed. *)
Definition dquote : string := String (Ascii.ascii_of_nat 34) EmptyString.
Definition LF : string := String (Ascii.ascii_of_nat 10) EmptyString.

(** The error of a node that stayed logical. *)
Definition notConverted (id : NodeID) : Error :=
  "logical node " +:+ dquote +:+ id +:+ dquote +:+ " could not be converted to a physical node".

(** A message names an identifier when the identifier occurs in it. *)
Definition names (e : Error) (id : NodeID) : Prop :=
  ∃ before after : string, e = before +:+ id +:+ after.

(** The body of the visitor of the validation walk, at the node the visitor
    was handed. *)
Definition validateNode (node : PlanNode) : option Error :=
  match asPostPhysicalValidator (procedureSpec node) with
  | Some validator => validator (ID node)
  | None =>
      if negb (isPhysical node) then Some (notConverted (ID node))
      else None
  end.

Definition validatePhysicalPlan (plan : SpecPtr) : M Store (option Error) :=
  BottomUpWalk plan (λ pn, node <- getNode pn ;; ret (validateNode node)).

Definition setMemoryBytesQuota (v : Z) (ps : PlanSpec) : PlanSpec :=
  mkPlanSpec (Roots ps) (mkResources (ConcurrencyQuota (Resources ps)) v).

Definition setConcurrencyQuota (v : Z) (ps : PlanSpec) : PlanSpec :=
  mkPlanSpec (Roots ps) (mkResources v (MemoryBytesQuota (Resources ps))).

Section Planner.

(** The parts of the package that [Plan] and [NewPhysicalPlanner] call and
    that are defined in other files: the [Plan] method of the heuristic
    planner, the visitor [ComputeBounds], the method [CheckIntegrity] and
    the registry of physical rules. *)
Variable heuristicPlan : heuristicPlanner → SpecPtr → M Store (option SpecPtr * option Error).
Variable ComputeBounds : Ptr → M Store (option Error).
Variable CheckIntegrity : SpecPtr → M Store (option Error).
Variable ruleNameToPhysicalRule : list Rule.

Definition NewPhysicalPlanner (options : list PhysicalOption) : physicalPlanner :=
  let pp := mkPhysicalPlanner newHeuristicPlanner MaxInt64 false in
  let pp := mkPhysicalPlanner (addRules ruleNameToPhysicalRule (heuristic pp))
              (defaultMemoryLimit pp) (disableValidation pp) in
  let pp := mkPhysicalPlanner (addRules [converterRule] (heuristic pp))
              (defaultMemoryLimit pp) (disableValidation pp) in
  foldl (λ pp opt, opt pp) pp options.

(** Ensure that the plan is valid. *)
Definition ensureValid (pp : physicalPlanner) (transformedSpec : SpecPtr) : M Store (option Error) :=
  if negb (disableValidation pp) then
    err <- CheckIntegrity transformedSpec ;;
    match err with
    | Some e => ret (Some e)
    | None => validatePhysicalPlan transformedSpec
    end
  else ret None.

(** Update memory quota, then concurrency quota. *)
Definition updateQuotas (pp : physicalPlanner) (transformedSpec : SpecPtr) : M Store unit :=
  ps <- getPlan transformedSpec ;;
  (if (MemoryBytesQuota (Resources ps) =? 0)%Z
   then setPlan transformedSpec (setMemoryBytesQuota (defaultMemoryLimit pp) ps)
   else ret tt) ;;
  ps <- getPlan transformedSpec ;;
  (if (ConcurrencyQuota (Resources ps) =? 0)%Z
   then setPlan transformedSpec (setConcurrencyQuota (Z.of_nat (size (Roots ps))) ps)
   else ret tt).

Definition Plan (pp : physicalPlanner) (spec : SpecPtr) : M Store (option SpecPtr * option Error) :=
  r <- heuristicPlan (heuristic pp) spec ;;
  match r.2 with
  | Some err => ret (None, Some err)
  | None =>
      transformedSpec <- nonNil r.1 ;;
      (* Compute time bounds for nodes in the plan *)
      err <- BottomUpWalk transformedSpec ComputeBounds ;;
      match err with
      | Some err => ret (None, Some err)
      | None =>
          err <- ensureValid pp transformedSpec ;;
          match err with
          | Some err => ret (None, Some err)
          | None =>
              updateQuotas pp transformedSpec ;;
              ret (Some transformedSpec, None)
          end
      end
  end.

End Planner.

(** ** The formatter *)

Record formatter := mkFormatter {
  t : string;
  p : SpecPtr
}.

Definition FormatOption := formatter → formatter.

Definition Formatted (p : SpecPtr) (opts : list FormatOption) : formatter :=
  foldl (λ f o, o f) (mkFormatter "plan" p) opts.

Definition FormatTitle (title : string) : FormatOption :=
  λ f, mkFormatter title (p f).

(** The state of a running [Format]: the store, what was written to the
    [fmt.State] so far, and the local variable [edges]. *)
Record FormatState := mkFormatState {
  fm_store : Store;
  fm_out : string;
  fm_edges : list string
}.

Global Instance FormatState_HasStore : HasStore FormatState := fm_store.

Definition Fprintf (text : string) : M FormatState unit :=
  λ s, Ret (tt, mkFormatState (fm_store s) (fm_out s +:+ text) (fm_edges s)).

Definition appendEdge (e : string) : M FormatState unit :=
  λ s, Ret (tt, mkFormatState (fm_store s) (fm_out s) (fm_edges s ++ [e])).

Definition getEdges : M FormatState (list string) :=
  λ s, Ret (fm_edges s, s).

Fixpoint forEach {S A} (l : list A) (body : A → M S unit) : M S unit :=
  match l with
  | [] => ret tt
  | x :: l' => body x ;; forEach l' body
  end.

Definition formatNode (pn : Ptr) : M FormatState (option Error) :=
  node <- getNode pn ;;
  Fprintf ("  " +:+ ID node +:+ LF) ;;
  forEach (Predecessors node) (λ pred,
    predNode <- getNode pred ;;
    appendEdge ("  " +:+ ID predNode +:+ " -> " +:+ ID node)) ;;
  ret None.

Definition Format (f : formatter) : M FormatState unit :=
  Fprintf (LF +:+ "digraph " +:+ t f +:+ " {" +:+ LF) ;;
  _ <- BottomUpWalk (p f) formatNode ;;
  Fprintf LF ;;
  edges <- getEdges ;;
  forEach edges (λ e, Fprintf (e +:+ LF)) ;;
  Fprintf ("}" +:+ LF).

(** Running [Format] on an [fmt.State] that holds [out] already; [edges]
    starts out nil. *)
Definition runFormat (f : formatter) (out : string) (s : Store) : outcome (string * Store) :=
  match Format f (mkFormatState s out []) with
  | Ret (_, s') => Ret (fm_out s', fm_store s')
  | Panic => Panic
  end.

(** ** The collaborators, as the spec describes them

    They serve to run the planner on concrete graphs; the theorems on [Plan]
    hold for every heuristic planner, bounds visitor and integrity check. *)

(** Modelled from the spec: applying, at one node, every active rule whose
    pattern matches; a rule that reports a change hands its new node to the
    rules after it; an error aborts. *)
Fixpoint applyRules (rs : list Rule) (pn : Ptr) : M Store (Ptr * bool * option Error) :=
  match rs with
  | [] => ret (pn, false, None)
  | r :: rs' =>
      node <- getNode pn ;;
      if Match (rulePattern r) node then
        res <- ruleRewrite r pn ;;
        match res with
        | (_, _, Some e) => ret (pn, false, Some e)
        | (new, changed, None) =>
            res' <- applyRules rs' new ;;
            ret (res'.1.1, changed || res'.1.2, res'.2)
        end
      else applyRules rs' pn
  end.

Definition replaceRoot (plan : SpecPtr) (old new : Ptr) : M Store unit :=
  ps <- getPlan plan ;;
  if bool_decide (old ∈ Roots ps)
  then setPlan plan (mkPlanSpec ({[new]} ∪ Roots ps ∖ {[old]}) (Resources ps))
  else ret tt.

(** Modelled from the spec: one full pass over the nodes of the graph. *)
Fixpoint passOver (rs : list Rule) (plan : SpecPtr) (order : list Ptr) (anyChanged : bool)
    : M Store (bool * option Error) :=
  match order with
  | [] => ret (anyChanged, None)
  | pn :: order' =>
      res <- applyRules rs pn ;;
      match res with
      | (_, _, Some e) => ret (anyChanged, Some e)
      | (new, true, None) => replaceRoot plan pn new ;; passOver rs plan order' true
      | (_, false, None) => passOver rs plan order' anyChanged
      end
  end.

Definition onePass (rs : list Rule) (plan : SpecPtr) : M Store (bool * option Error) :=
  ps <- getPlan plan ;;
  λ s, passOver rs plan (bottomUpOrder (nodes s) (Roots ps)) false s.

(** Modelled from the spec: passes are repeated until one changes nothing, or
    until the iteration bound is exceeded, which is an error. *)
Fixpoint passes (bound : nat) (rs : list Rule) (plan : SpecPtr)
    : M Store (option SpecPtr * option Error) :=
  match bound with
  | 0 => ret (None, Some "rewriting did not reach a fixed point")
  | S b =>
      r <- onePass rs plan ;;
      match r with
      | (_, Some e) => ret (None, Some e)
      | (false, None) => ret (Some plan, None)
      | (true, None) => passes b rs plan
      end
  end.

Definition heuristicPlanner_Plan (bound : nat) (hp : heuristicPlanner) (spec : SpecPtr)
    : M Store (option SpecPtr * option Error) :=
  passes bound (rules hp) spec.

Definition setBounds (b : bounds) (pn : PlanNode) : PlanNode :=
  match pn with
  | Logical ln => Logical (mkLogicalPlanNode (l_edges ln) b (l_id ln) (l_Spec ln))
  | Physical ppn =>
      Physical (mkPhysicalPlanNode (p_edges ppn) b (p_id ppn) (p_Spec ppn)
                  (RequiredAttrs ppn) (OutputAttrs ppn))
  | Foreign fn => Foreign (mkForeignPlanNode (f_edges fn) b (f_id fn) (f_Spec fn))
  end.

Definition unionBounds (a b : bounds) : bounds :=
  match a, b with
  | Some (s1, e1), Some (s2, e2) => Some (Z.min s1 s2, Z.max e1 e2)
  | Some x, None | None, Some x => Some x
  | None, None => None
  end.

Fixpoint getNodes (l : list Ptr) : M Store (list PlanNode) :=
  match l with
  | [] => ret []
  | q :: l' => n <- getNode q ;; ns <- getNodes l' ;; ret (n :: ns)
  end.

(** Modelled from the spec: by default a node takes the bounds of its
    predecessors; a node without predecessors keeps its own. *)
Definition ComputeBounds_default (pn : Ptr) : M Store (option Error) :=
  node <- getNode pn ;;
  preds <- getNodes (Predecessors node) ;;
  match preds with
  | [] => ret None
  | _ => λ s, Ret (None, mkStore (alter (setBounds (foldl unionBounds None (Bounds <$> preds))) pn
                                    (nodes s)) (plans s))
  end.

Definition recordedIn (h : list PlanNode) (side : PlanNode → list Ptr) (pn q : Ptr) : bool :=
  match h !! q with
  | Some m => bool_decide (pn ∈ side m)
  | None => false
  end.

(** Modelled from the spec: every predecessor/successor pair is mutually
    recorded. *)
Definition symmetryCheck (pn : Ptr) : M Store (option Error) :=
  node <- getNode pn ;;
  λ s, if forallb (recordedIn (nodes s) Successors pn) (Predecessors node)
          && forallb (recordedIn (nodes s) Predecessors pn) (Successors node)
       then Ret (None, s)
       else Ret (Some ("integrity violation at node " +:+ ID node), s).

Definition CheckIntegrity_model (plan : SpecPtr) : M Store (option Error) :=
  BottomUpWalk plan symmetryCheck.

(** The planner as a whole, with ten passes at most and no registered rule. *)
Definition planWith (options : list PhysicalOption) (spec : SpecPtr)
    : M Store (option SpecPtr * option Error) :=
  Plan (heuristicPlanner_Plan 10) ComputeBounds_default CheckIntegrity_model
    (NewPhysicalPlanner [] options) spec.

(** ** Sample specs, nodes and graphs *)

Definition logicalOnly : ProcedureSpec := mkProcedureSpec "window" None None.
Definition capable : ProcedureSpec := mkProcedureSpec "range" (Some (λ _, (1%Z, 1%Z))) None.
Definition failingHook : ProcedureSpec :=
  mkProcedureSpec "yield" (Some (λ _, (1%Z, 1%Z))) (Some (λ _, Some "invalid")).
Definition passingHook : ProcedureSpec := mkProcedureSpec "merge" None (Some (λ _, None)).

Definition resources0 : ResourceManagement := mkResources 0 0.

(** One root logical node [N1] with a physical-capable spec. *)
Definition store_N1 : Store :=
  mkStore [Logical (mkLogicalPlanNode noEdges (Some (0, 10)%Z) "N1" capable)]
          [mkPlanSpec {[0]} resources0].

(** A physical node [A] whose hook fails, feeding the root [B], a logical
    node that no rule converts. *)
Definition store_AB : Store :=
  mkStore [Physical (mkPhysicalPlanNode (mkEdges [] [1]) None "A"
                       (mkPhysicalProcedureSpec failingHook (λ _, (1%Z, 1%Z))) [] mkPhysicalAttributes);
           Logical (mkLogicalPlanNode (mkEdges [0] []) None "B" logicalOnly)]
          [mkPlanSpec {[1]} resources0].

(** A lone root logical node [L] that no rule converts. *)
Definition store_L : Store :=
  mkStore [Logical (mkLogicalPlanNode noEdges None "L" logicalOnly)]
          [mkPlanSpec {[0]} resources0].

(** A chain [S0 -> S1 -> S2] of a logical capable node between two others. *)
Definition store_chain : Store :=
  mkStore [Logical (mkLogicalPlanNode (mkEdges [] [1]) None "S0" capable);
           Logical (mkLogicalPlanNode (mkEdges [0] [2]) (Some (1, 2)%Z) "S1" capable);
           Logical (mkLogicalPlanNode (mkEdges [1] []) None "S2" passingHook);
           Foreign (mkForeignPlanNode noEdges None "X" logicalOnly)]
          [mkPlanSpec {[2]} (mkResources 4 0)].

(** ** Notions used to state the properties *)

(** The first error the validation gives along a list of node pointers. *)
Fixpoint firstError (h : list PlanNode) (l : list Ptr) : option Error :=
  match l with
  | [] => None
  | x :: l' =>
      match validateNode <$> h !! x with
      | Some (Some e) => Some e
      | _ => firstError h l'
      end
  end.

(** The plan spec once both quotas are defaulted. *)
Definition withDefaultQuotas (limit : Z) (ps : PlanSpec) : PlanSpec :=
  let ps1 := if (MemoryBytesQuota (Resources ps) =? 0)%Z
             then setMemoryBytesQuota limit ps else ps in
  if (ConcurrencyQuota (Resources ps1) =? 0)%Z
  then setConcurrencyQuota (Z.of_nat (size (Roots ps1))) ps1 else ps1.

(** Every predecessor pointer of the arena points into the arena. *)
Definition closedb (h : list PlanNode) : bool :=
  forallb (λ n, forallb (λ q, bool_decide (q < length h)) (Predecessors n)) h.

Definition idOf (h : list PlanNode) (x : Ptr) : NodeID :=
  match h !! x with
  | Some n => ID n
  | None => ""
  end.

Definition joinLines (l : list string) : string :=
  foldr (λ line acc, line +:+ LF +:+ acc) "" l.

(** The statements of the rendering, one per visited node. *)
Definition nodeStatements (h : list PlanNode) (order : list Ptr) : list string :=
  (λ x, "  " +:+ idOf h x) <$> order.

(** The edge lines of the rendering: for each visited node, one line per
    predecessor. *)
Definition edgeLines (h : list PlanNode) (order : list Ptr) : list string :=
  order ≫= λ x,
    match h !! x with
    | Some n => (λ q, "  " +:+ idOf h q +:+ " -> " +:+ ID n) <$> Predecessors n
    | None => []
    end.

(** The directed-graph text of the spec: a named block holding the node
    statements, an empty line, and the edge lines. *)
Definition rendering (title : string) (h : list PlanNode) (order : list Ptr) : string :=
  LF +:+ "digraph " +:+ title +:+ " {" +:+ LF
  +:+ joinLines (nodeStatements h order)
  +:+ LF
  +:+ joinLines (edgeLines h order)
  +:+ "}" +:+ LF.

(** Whether [id] occurs in [e], by search. *)
Fixpoint occursIn (id e : string) : bool :=
  String.prefix id e
  || match e with
     | EmptyString => false
     | String _ e' => occursIn id e'
     end.

(** An option that does not switch validation back on. *)
Definition keepsDisabled (opt : PhysicalOption) : Prop :=
  ∀ pp, disableValidation pp = true → disableValidation (opt pp) = true.

(** The nodes of the arena [h] that the walk has not entered. *)
Definition unseen (h : list PlanNode) (seen : gset Ptr) : nat :=
  size (set_seq 0 (length h) ∖ seen).

(** What a descent, or a sequence of descents, achieves: it only adds to both
    components; the valid targets are entered; every newly entered node was
    left, and has all its valid predecessors entered. *)
Definition walked (h : list PlanNode) (st st' : gset Ptr * list Ptr) (targets : list Ptr) : Prop :=
  st.1 ⊆ st'.1
  ∧ (∀ x, x ∈ st.2 → x ∈ st'.2)
  ∧ (∀ q, q ∈ targets → is_Some (h !! q) → q ∈ st'.1)
  ∧ (∀ x, x ∈ st'.1 → x ∉ st.1 →
       x ∈ st'.2 ∧ ∀ n q, h !! x = Some n → q ∈ Predecessors n → is_Some (h !! q) → q ∈ st'.1).

(** The store once the quotas of the plan at [transformedSpec] are
    defaulted. *)
Definition finished (pp : physicalPlanner) (transformedSpec : SpecPtr) (ps : PlanSpec)
    (s : Store) : Store :=
  mkStore (nodes s)
    (<[transformedSpec := withDefaultQuotas (defaultMemoryLimit pp) ps]> (plans s)).

Section PlanRuns.

Variable heuristicPlan : heuristicPlanner → SpecPtr → M Store (option SpecPtr * option Error).
Variable ComputeBounds : Ptr → M Store (option Error).
Variable CheckIntegrity : SpecPtr → M Store (option Error).

(** The four ways in which a run of [Plan] returns. *)
Inductive PlanRun (pp : physicalPlanner) (spec : SpecPtr) (s : Store)
    : option SpecPtr * option Error → Store → Prop :=
  | run_heuristic_error ts e s1 :
      heuristicPlan (heuristic pp) spec s = Ret ((ts, Some e), s1) →
      PlanRun pp spec s (None, Some e) s1
  | run_bounds_error transformedSpec s1 e s2 :
      heuristicPlan (heuristic pp) spec s = Ret ((Some transformedSpec, None), s1) →
      BottomUpWalk transformedSpec ComputeBounds s1 = Ret (Some e, s2) →
      PlanRun pp spec s (None, Some e) s2
  | run_validation_error transformedSpec s1 s2 e s3 :
      heuristicPlan (heuristic pp) spec s = Ret ((Some transformedSpec, None), s1) →
      BottomUpWalk transformedSpec ComputeBounds s1 = Ret (None, s2) →
      ensureValid CheckIntegrity pp transformedSpec s2 = Ret (Some e, s3) →
      PlanRun pp spec s (None, Some e) s3
  | run_success transformedSpec s1 s2 s3 ps :
      heuristicPlan (heuristic pp) spec s = Ret ((Some transformedSpec, None), s1) →
      BottomUpWalk transformedSpec ComputeBounds s1 = Ret (None, s2) →
      ensureValid CheckIntegrity pp transformedSpec s2 = Ret (None, s3) →
      plans s3 !! transformedSpec = Some ps →
      PlanRun pp spec s (Some transformedSpec, None) (finished pp transformedSpec ps s3).

End PlanRuns.


(** ** The other methods of physical nodes

    A method with a pointer receiver takes the node and, when it writes to
    it, returns the node it leaves. *)

(** The error of [ReplaceSpec]. *)
Definition couldNotReplace (id : NodeID) : Error :=
  "couldn't replace ProcedureSpec for physical plan node " +:+ dquote +:+ id +:+ dquote.

Definition ReplaceSpec (newSpec : ProcedureSpec) (ppn : PhysicalPlanNode)
    : PhysicalPlanNode * option Error :=
  match asPhysicalProcedureSpec newSpec with
  | None => (ppn, Some (couldNotReplace (ID (Physical ppn))))
  | Some physSpec =>
      (mkPhysicalPlanNode (p_edges ppn) (p_bounds ppn) (p_id ppn) physSpec
         (RequiredAttrs ppn) (OutputAttrs ppn), None)
  end.

(** The method [Kind] of a physical node. *)
Definition PhysicalPlanNode_Kind (ppn : PhysicalPlanNode) : ProcedureKind :=
  Kind (dynSpec (p_Spec ppn)).

(** The method [Cost] of a physical node. *)
Definition PhysicalPlanNode_Cost (ppn : PhysicalPlanNode) (inStats : list Statistics)
    : Cost * Statistics :=
  specCost (p_Spec ppn) inStats.

(** [ShallowCopy] makes a new node; it sets the edges, the identifier and the
    spec, and nothing else.  The copy of the edges and the [Copy] method of
    the specs are defined elsewhere and are arguments here.  The type
    assertion on the copied spec is unchecked. *)
Definition ShallowCopy (shallowCopy : edges → edges) (Copy : ProcedureSpec → ProcedureSpec)
    (ppn : PhysicalPlanNode) : outcome PhysicalPlanNode :=
  match asPhysicalProcedureSpec (Copy (dynSpec (p_Spec ppn))) with
  | Some spec =>
      Ret (mkPhysicalPlanNode (shallowCopy (p_edges ppn)) None (p_id ppn +:+ "_copy") spec
             [] mkPhysicalAttributes)
  | None => Panic
  end.

Definition CreatePhysicalNode (id : NodeID) (spec : PhysicalProcedureSpec) : PhysicalPlanNode :=
  mkPhysicalPlanNode noEdges None id spec [] mkPhysicalAttributes.

(** A [PhysicalProcedureSpec] is an interface value: its [Cost] is the [Cost]
    of the value it holds. *)
Definition sameValue (spec : PhysicalProcedureSpec) : Prop :=
  CostMethod (dynSpec spec) = Some (specCost spec).

(** ** The calls that make the options of the package *)

Inductive OptionCall :=
  | CallWithDefaultMemoryLimit (memBytes : Z)
  | CallOnlyPhysicalRules (rs : list Rule)
  | CallDisableValidation.

Definition optionOf (c : OptionCall) : PhysicalOption :=
  match c with
  | CallWithDefaultMemoryLimit memBytes => WithDefaultMemoryLimit memBytes
  | CallOnlyPhysicalRules rs => OnlyPhysicalRules rs
  | CallDisableValidation => DisableValidation
  end.

Definition setsMemoryLimit (c : OptionCall) : bool :=
  match c with CallWithDefaultMemoryLimit _ => true | _ => false end.

Definition setsRules (c : OptionCall) : bool :=
  match c with CallOnlyPhysicalRules _ => true | _ => false end.

Definition disablesValidation (c : OptionCall) : bool :=
  match c with CallDisableValidation => true | _ => false end.

(** Two arenas that agree on what [Format] reads: the identifier and the
    predecessors of each node. *)
Definition sameShape (h1 h2 : list PlanNode) : Prop :=
  ∀ x, (λ n, (ID n, Predecessors n)) <$> h1 !! x = (λ n, (ID n, Predecessors n)) <$> h2 !! x.

(** A node passes the validation. *)
Definition passes_validation (n : PlanNode) : Prop :=
  match asPostPhysicalValidator (procedureSpec n) with
  | Some validator => validator (ID n) = None
  | None => isPhysical n = true
  end.

(** ** More sample graphs *)

(** The chain again, with other specs and bounds, no successors recorded
    and other resources. *)
Definition store_chain_bare : Store :=
  mkStore [Foreign (mkForeignPlanNode (mkEdges [] []) (Some (5, 6)%Z) "S0" logicalOnly);
           Logical (mkLogicalPlanNode (mkEdges [0] []) None "S1" passingHook);
           Physical (mkPhysicalPlanNode (mkEdges [1] [7]) None "S2"
                       (mkPhysicalProcedureSpec capable (λ _, (1%Z, 1%Z))) [] mkPhysicalAttributes);
           Logical (mkLogicalPlanNode (mkEdges [] [0]) None "X" capable)]
          [mkPlanSpec {[2]} (mkResources 0 9)].

(** A lone root made by [CreatePhysicalNode]. *)
Definition store_P : Store :=
  mkStore [Physical (CreatePhysicalNode "P" (mkPhysicalProcedureSpec capable (λ _, (1%Z, 1%Z))))]
          [mkPlanSpec {[0]} resources0].

(** A physical node [P] that passes the validation, feeding the root [B], a
    logical node that no rule converts. *)
Definition store_PB : Store :=
  mkStore [Physical (mkPhysicalPlanNode (mkEdges [] [1]) None "P"
                       (mkPhysicalProcedureSpec capable (λ _, (1%Z, 1%Z))) [] mkPhysicalAttributes);
           Logical (mkLogicalPlanNode (mkEdges [0] []) None "B" logicalOnly)]
          [mkPlanSpec {[1]} resources0].

(** A plan without roots beside a plan with one. *)
Definition store_two_plans : Store :=
  mkStore (nodes store_chain) [mkPlanSpec {[2]} (mkResources 4 0); mkPlanSpec ∅ resources0].

(** * Properties *)

(** ** Running computations *)

Lemma bind_Ret {S A B} (m : M S A) (k : A → M S B) s b s' :
  bind m k s = Ret (b, s') ↔ ∃ a s1, m s = Ret (a, s1) ∧ k a s1 = Ret (b, s').
Proof.
  unfold bind. split.
  - destruct (m s) as [[a s1]|]; [eauto | discriminate].
  - intros (a & s1 & -> & Hk). exact Hk.
Qed.

Lemma bind_run {S A B} (m : M S A) (k : A → M S B) s a s1 :
  m s = Ret (a, s1) → bind m k s = k a s1.
Proof. unfold bind. by intros ->. Qed.

Lemma getNode_run {S} `{HasStore S} pn (s : S) n :
  nodes (theStore s) !! pn = Some n → getNode pn s = Ret (n, s).
Proof. unfold getNode. by intros ->. Qed.

Lemma getPlan_run {S} `{HasStore S} pl (s : S) ps :
  plans (theStore s) !! pl = Some ps → getPlan pl s = Ret (ps, s).
Proof. unfold getPlan. by intros ->. Qed.

Lemma getPlan_Ret {S} `{HasStore S} pl (s s' : S) ps :
  getPlan pl s = Ret (ps, s') → plans (theStore s) !! pl = Some ps ∧ s' = s.
Proof.
  unfold getPlan. destruct (plans (theStore s) !! pl); [|discriminate].
  by intros [= -> ->].
Qed.

(** ** The bottom-up order *)

Section Walk.

Variable h : list PlanNode.

Lemma walked_refl st : walked h st st [].
Proof.
  repeat split; try done.
  - intros q Hq. by apply elem_of_nil in Hq.
Qed.

Lemma walked_trans st st1 st2 a b :
  walked h st st1 a → walked h st1 st2 b → walked h st st2 (a ++ b).
Proof.
  intros (Ha1 & Ha2 & Ha3 & Ha4) (Hb1 & Hb2 & Hb3 & Hb4).
  repeat split.
  - by transitivity st1.1.
  - auto.
  - intros q [Hq|Hq]%elem_of_app Hv; [apply Hb1; auto | auto].
  - destruct (decide (x ∈ st1.1)) as [Hin|Hnin].
    + apply Hb2. by apply Ha4.
    + by apply Hb4.
  - intros n q Hn Hq Hv.
    destruct (decide (x ∈ st1.1)) as [Hin|Hnin].
    + apply Hb1. destruct (Ha4 x Hin H0) as [_ Hc]. eauto.
    + destruct (Hb4 x H Hnin) as [_ Hc]. eauto.
Qed.

Lemma unseen_mono (a b : gset Ptr) : a ⊆ b → unseen h b ≤ unseen h a.
Proof. intros Hab. unfold unseen. apply subseteq_size. set_solver. Qed.

Lemma unseen_enter (x : Ptr) (seen : gset Ptr) :
  is_Some (h !! x) → x ∉ seen → unseen h ({[x]} ∪ seen) < unseen h seen.
Proof.
  intros Hv Hx. unfold unseen. apply subset_size.
  apply lookup_lt_is_Some in Hv.
  assert (x ∈ (set_seq 0 (length h) : gset Ptr)) by (apply elem_of_set_seq; lia).
  set_solver.
Qed.

Lemma walks_walked k :
  (∀ x st, unseen h st.1 < k → walked h st (walk k h x st) [x]) →
  ∀ l st, unseen h st.1 < k → walked h st (foldl (λ acc q, walk k h q acc) st l) l.
Proof.
  intros IH l. induction l as [|q l IHl]; intros st Hk; simpl.
  - apply walked_refl.
  - change (q :: l) with ([q] ++ l).
    eapply walked_trans; [by apply IH|].
    apply IHl. pose proof (IH q st Hk) as (Hsub & _).
    pose proof (unseen_mono _ _ Hsub). lia.
Qed.

Lemma walk_walked fuel : ∀ x st, unseen h st.1 < fuel → walked h st (walk fuel h x st) [x].
Proof.
  induction fuel as [|k IH]; intros x st Hk; [lia|]. simpl.
  destruct (decide (x ∈ st.1)) as [Hin|Hnin].
  { repeat split; try done. intros q ->%list_elem_of_singleton _. done. }
  destruct (h !! x) as [n|] eqn:Hx.
  2:{ repeat split; try done.
      intros q ->%list_elem_of_singleton [? ?]. congruence. }
  assert (unseen h ({[x]} ∪ st.1) < k) as Hk'.
  { pose proof (unseen_enter x st.1 (mk_is_Some _ _ Hx) Hnin). lia. }
  pose proof (walks_walked k IH (Predecessors n) ({[x]} ∪ st.1, st.2) Hk')
    as (H1 & H2 & H3 & H4); simpl in *.
  repeat split; simpl.
  - set_solver.
  - intros y Hy. apply elem_of_app. left. auto.
  - intros q ->%list_elem_of_singleton _. set_solver.
  - destruct (decide (x0 = x)) as [->|Hne].
    + apply elem_of_app. right. by apply list_elem_of_singleton.
    + apply elem_of_app. left. apply H4; [done|set_solver].
  - intros n' q Hn' Hq Hv.
    destruct (decide (x0 = x)) as [->|Hne].
    + assert (n' = n) as -> by congruence. by apply H3.
    + destruct (H4 x0 H) as [_ Hc]; [set_solver|]. eauto.
Qed.

End Walk.

Lemma reachable_via h (roots : gset Ptr) x y :
  reachable h roots x → reachable h {[x]} y → reachable h roots y.
Proof.
  intros Hx Hy. induction Hy as [r Hr|a n q _ IH Hn Hq].
  - apply elem_of_singleton in Hr. by subst.
  - eapply reachable_pred; eauto.
Qed.

Lemma reachable_step h x n q y :
  h !! x = Some n → q ∈ Predecessors n → reachable h {[q]} y → reachable h {[x]} y.
Proof.
  intros Hn Hq Hy. eapply reachable_via; [|exact Hy].
  eapply reachable_pred; [|exact Hn|exact Hq].
  apply reachable_root. by apply elem_of_singleton.
Qed.

(** Whatever a descent from [x] adds to the order is a node of the arena
    that is reachable from [x]. *)
Lemma walk_sound h fuel : ∀ x st y,
  y ∈ (walk fuel h x st).2 → y ∈ st.2 ∨ (is_Some (h !! y) ∧ reachable h {[x]} y).
Proof.
  induction fuel as [|k IH]; intros x st y; simpl; [auto|].
  destruct (decide (x ∈ st.1)) as [?|Hnin]; [auto|].
  destruct (h !! x) as [nx|] eqn:Hx; [|auto]. simpl.
  assert (∀ l st0, (∀ q, q ∈ l → q ∈ Predecessors nx) →
            y ∈ (foldl (λ acc q, walk k h q acc) st0 l).2 →
            y ∈ st0.2 ∨ (is_Some (h !! y) ∧ reachable h {[x]} y)) as Hfold.
  { intros l. induction l as [|q l IHl]; intros st0 Hl; simpl; [auto|].
    intros Hy. apply IHl in Hy; [|intros; apply Hl; by right].
    destruct Hy as [Hy|Hy]; [|by right].
    apply IH in Hy as [Hy|[Hv Hy]]; [by left|right].
    split; [done|]. eapply reachable_step; [exact Hx| |exact Hy].
    apply Hl. by left. }
  intros [Hy|Hy]%elem_of_app.
  - apply Hfold in Hy; [exact Hy|done].
  - apply list_elem_of_singleton in Hy as ->. right. split; [by eexists|].
    apply reachable_root. by apply elem_of_singleton.
Qed.

(** The order visits only nodes of the arena, each reachable from a root. *)
Lemma bottomUpOrder_sound h (roots : gset Ptr) y :
  y ∈ bottomUpOrder h roots → is_Some (h !! y) ∧ reachable h roots y.
Proof.
  unfold bottomUpOrder.
  assert (∀ l st, (∀ r, r ∈ l → r ∈ roots) →
            y ∈ (foldl (λ acc r, walk (S (length h)) h r acc) st l).2 →
            y ∈ st.2 ∨ (is_Some (h !! y) ∧ reachable h roots y)) as Hfold.
  { intros l. induction l as [|r l IHl]; intros st Hl; [simpl; auto|].
    cbn [foldl]. intros Hy. apply IHl in Hy; [|intros; apply Hl; by right].
    destruct Hy as [Hy|Hy]; [|by right].
    apply walk_sound in Hy as [Hy|[Hv Hy]]; [by left|right].
    split; [done|]. eapply reachable_via; [|exact Hy].
    apply reachable_root, Hl. by left. }
  intros Hy. apply Hfold in Hy as [Hy|Hy]; [|done|].
  - by apply elem_of_nil in Hy.
  - intros r. apply elem_of_elements.
Qed.

(** The order visits every node of the arena that is reachable from a
    root. *)
Lemma bottomUpOrder_complete h (roots : gset Ptr) y :
  reachable h roots y → is_Some (h !! y) → y ∈ bottomUpOrder h roots.
Proof.
  unfold bottomUpOrder.
  pose proof (walks_walked h (S (length h)) (walk_walked h (S (length h)))
                (elements roots) (∅, [])) as Hw.
  destruct Hw as (_ & _ & Hroots & Hnew).
  { unfold unseen. simpl. rewrite difference_empty_L, size_set_seq. lia. }
  set (st' := foldl _ _ _) in *. simpl in *.
  assert (∀ z, reachable h roots z → is_Some (h !! z) → z ∈ st'.1) as Hall.
  { intros z Hz. induction Hz as [r Hr|a n q _ IH Hn Hq]; intros Hv.
    - apply Hroots; [by apply elem_of_elements|done].
    - assert (a ∈ st'.1) as Ha by (apply IH; by eexists).
      destruct (Hnew a Ha) as [_ Hc]; [set_solver|]. eauto. }
  intros Hy Hv. apply Hnew; [by apply Hall|set_solver].
Qed.

(** What a descent keeps: the nodes left are among the nodes entered, no
    node is left twice, and the nodes it adds to the order were not entered
    before. *)
Lemma walk_once h fuel : ∀ x st,
  (∀ y, y ∈ st.2 → y ∈ st.1) → NoDup st.2 →
  st.1 ⊆ (walk fuel h x st).1
  ∧ (∀ y, y ∈ (walk fuel h x st).2 → y ∈ (walk fuel h x st).1)
  ∧ NoDup (walk fuel h x st).2
  ∧ (∀ y, y ∈ (walk fuel h x st).2 → y ∈ st.2 ∨ y ∉ st.1).
Proof.
  induction fuel as [|k IH]; intros x st Hin Hnd; simpl; [by auto|].
  destruct (decide (x ∈ st.1)) as [?|Hx]; [by auto|].
  destruct (h !! x) as [nx|]; [|by auto]. simpl.
  assert (∀ l st0, (∀ y, y ∈ st0.2 → y ∈ st0.1) → NoDup st0.2 →
            let st' := foldl (λ acc q, walk k h q acc) st0 l in
            st0.1 ⊆ st'.1 ∧ (∀ y, y ∈ st'.2 → y ∈ st'.1) ∧ NoDup st'.2
            ∧ (∀ y, y ∈ st'.2 → y ∈ st0.2 ∨ y ∉ st0.1)) as Hfold.
  { intros l. induction l as [|q l IHl]; intros st0 Hin0 Hnd0; simpl; [by auto|].
    destruct (IH q st0 Hin0 Hnd0) as (Ha & Hb & Hc & Hd).
    destruct (IHl _ Hb Hc) as (Ha' & Hb' & Hc' & Hd').
    repeat split; [by transitivity (walk k h q st0).1|done|done|].
    intros y Hy. destruct (Hd' y Hy) as [Hy'|Hy']; [by apply Hd|].
    right. intros Hy0. by apply Hy', Ha. }
  destruct (Hfold (Predecessors nx) ({[x]} ∪ st.1, st.2))
    as (Ha & Hb & Hc & Hd); simpl in *.
  { intros y Hy. apply elem_of_union. right. by apply Hin. }
  { done. }
  repeat split.
  - by transitivity ({[x]} ∪ st.1); [apply union_subseteq_r|].
  - intros y [Hy|Hy%list_elem_of_singleton]%elem_of_app; [by apply Hb|]. subst y.
    apply Ha, elem_of_union. left. by apply elem_of_singleton.
  - apply NoDup_app. repeat split; [done| |apply NoDup_singleton].
    intros y Hy Hyx%list_elem_of_singleton. subst y.
    destruct (Hd x Hy) as [Hy'|Hy']; [by apply Hx, Hin|].
    apply Hy', elem_of_union. left. by apply elem_of_singleton.
  - intros y [Hy|Hy%list_elem_of_singleton]%elem_of_app; [|subst y; by right].
    destruct (Hd y Hy) as [Hy'|Hy']; [by left|right].
    intros Hy0. apply Hy', elem_of_union. by right.
Qed.

(** The order visits no node twice. *)
Lemma bottomUpOrder_NoDup h (roots : gset Ptr) : NoDup (bottomUpOrder h roots).
Proof.
  unfold bottomUpOrder.
  assert (∀ l st, (∀ y, y ∈ st.2 → y ∈ st.1) → NoDup st.2 →
            let st' := foldl (λ acc r, walk (S (length h)) h r acc) st l in
            (∀ y, y ∈ st'.2 → y ∈ st'.1) ∧ NoDup st'.2) as Hfold.
  { intros l. induction l as [|r l IHl]; intros st Hin Hnd; [done|].
    cbn [foldl]. destruct (walk_once h (S (length h)) r st Hin Hnd) as (_ & Hb & Hc & _).
    by apply IHl. }
  apply (Hfold (elements roots) (∅, [])); simpl.
  - intros y []%elem_of_nil.
  - apply NoDup_nil_2.
Qed.

(** ** Visiting the nodes in order *)

(** A visitor that reads the store and changes nothing stops at the first
    node it rejects. *)
Lemma visitAll_validate (s : Store) l :
  (∀ x, x ∈ l → is_Some (nodes s !! x)) →
  visitAll (λ pn, node <- getNode pn ;; ret (validateNode node)) l s
  = Ret (firstError (nodes s) l, s).
Proof.
  induction l as [|x l IH]; intros Hl; cbn [visitAll firstError]; [done|].
  destruct (Hl x) as [n Hn]; [by left|].
  rewrite (bind_run _ _ s (validateNode n) s).
  2:{ rewrite (bind_run _ _ s n s); [done|by apply getNode_run]. }
  rewrite Hn. simpl.
  destruct (validateNode n); [done|].
  apply IH. intros; apply Hl. by right.
Qed.

Lemma firstError_None h l :
  firstError h l = None → ∀ x n, x ∈ l → h !! x = Some n → validateNode n = None.
Proof.
  induction l as [|y l IH]; simpl; intros He x n Hx Hn.
  - by apply elem_of_nil in Hx.
  - apply elem_of_cons in Hx as [->|Hx].
    + rewrite Hn in He. simpl in He. by destruct (validateNode n).
    + destruct (validateNode <$> h !! y) as [[e|]|]; [discriminate|eauto..].
Qed.

Lemma firstError_Some h l x n e0 :
  x ∈ l → h !! x = Some n → validateNode n = Some e0 → is_Some (firstError h l).
Proof.
  induction l as [|y l IH]; simpl; intros Hx Hn He.
  - by apply elem_of_nil in Hx.
  - apply elem_of_cons in Hx as [->|Hx].
    + rewrite Hn. simpl. rewrite He. by eexists.
    + destruct (validateNode <$> h !! y) as [[e|]|]; [by eexists|eauto..].
Qed.

(** The error found is the verdict on a node of the list, and every node
    before it passes. *)
Lemma firstError_first h l e :
  firstError h l = Some e →
  ∃ l1 x l2 n, l = l1 ++ x :: l2 ∧ h !! x = Some n ∧ validateNode n = Some e
               ∧ ∀ y m, y ∈ l1 → h !! y = Some m → validateNode m = None.
Proof.
  induction l as [|y l IH]; simpl; [discriminate|].
  destruct (h !! y) as [m|] eqn:Hy; simpl.
  - destruct (validateNode m) as [e'|] eqn:Hm.
    + intros [= ->]. exists [], y, l, m. repeat split; try done.
      intros ? ? []%elem_of_nil.
    + intros (l1 & x & l2 & n & -> & Hn & He & Hbefore)%IH.
      exists (y :: l1), x, l2, n. repeat split; try done.
      intros z k [->|Hz]%elem_of_cons Hk; [congruence|eauto].
  - intros (l1 & x & l2 & n & -> & Hn & He & Hbefore)%IH.
    exists (y :: l1), x, l2, n. repeat split; try done.
    intros z k [->|Hz]%elem_of_cons Hk; [congruence|eauto].
Qed.

Lemma firstError_app_passing h l1 x l2 n :
  (∀ y m, y ∈ l1 → h !! y = Some m → validateNode m = None) →
  h !! x = Some n →
  firstError h (l1 ++ x :: l2) = match validateNode n with
                                 | Some e => Some e
                                 | None => firstError h l2
                                 end.
Proof.
  intros Hbefore Hn. induction l1 as [|y l1 IH]; simpl.
  - by rewrite Hn.
  - destruct (h !! y) as [m|] eqn:Hy; simpl.
    + rewrite (Hbefore y m); [|by left|done].
      apply IH. intros; eapply Hbefore; [by right|done].
    + apply IH. intros; eapply Hbefore; [by right|done].
Qed.

(** The validation walk reads the store; its result is the first error along
    the bottom-up order. *)
Lemma validatePhysicalPlan_run plan s ps :
  plans s !! plan = Some ps →
  validatePhysicalPlan plan s
  = Ret (firstError (nodes s) (bottomUpOrder (nodes s) (Roots ps)), s).
Proof.
  intros Hps. unfold validatePhysicalPlan, BottomUpWalk.
  rewrite (bind_run _ _ s ps s); [|by apply getPlan_run].
  apply visitAll_validate. intros x Hx. by apply bottomUpOrder_sound in Hx as [? _].
Qed.

Lemma BottomUpWalk_Ret (plan : SpecPtr) (f : Ptr → M Store (option Error)) s r s' :
  BottomUpWalk plan f s = Ret (r, s') → is_Some (plans s !! plan).
Proof.
  unfold BottomUpWalk. intros (ps & s1 & Hg & _)%bind_Ret.
  apply getPlan_Ret in Hg as [Hg _]. by eexists.
Qed.

(** ** Quota defaulting *)

Lemma updateQuotas_run pp (transformedSpec : SpecPtr) s ps :
  plans s !! transformedSpec = Some ps →
  updateQuotas pp transformedSpec s
  = Ret (tt, mkStore (nodes s)
               (<[transformedSpec := withDefaultQuotas (defaultMemoryLimit pp) ps]> (plans s))).
Proof.
  intros Hps. pose proof (lookup_lt_Some _ _ _ Hps) as Hlt.
  unfold updateQuotas, withDefaultQuotas.
  rewrite (bind_run _ _ s ps s); [|by apply getPlan_run].
  destruct (MemoryBytesQuota (Resources ps) =? 0)%Z.
  - unfold setPlan at 1.
    erewrite bind_run; [|reflexivity].
    erewrite bind_run; [|apply getPlan_run; simpl; by apply list_lookup_insert_eq].
    destruct (ConcurrencyQuota (Resources (setMemoryBytesQuota _ ps)) =? 0)%Z.
    + unfold setPlan. simpl. by rewrite list_insert_insert_eq.
    + reflexivity.
  - erewrite bind_run; [|reflexivity].
    erewrite bind_run; [|by apply getPlan_run].
    destruct (ConcurrencyQuota (Resources ps) =? 0)%Z.
    + reflexivity.
    + unfold ret. rewrite list_insert_id by done. by destruct s.
Qed.

Lemma withDefaultQuotas_Roots limit ps : Roots (withDefaultQuotas limit ps) = Roots ps.
Proof.
  unfold withDefaultQuotas.
  destruct (MemoryBytesQuota (Resources ps) =? 0)%Z; simpl;
    match goal with |- context [if ?c then _ else _] => destruct c end; reflexivity.
Qed.

Lemma withDefaultQuotas_memory limit ps :
  MemoryBytesQuota (Resources (withDefaultQuotas limit ps))
  = if (MemoryBytesQuota (Resources ps) =? 0)%Z then limit
    else MemoryBytesQuota (Resources ps).
Proof.
  unfold withDefaultQuotas.
  destruct (MemoryBytesQuota (Resources ps) =? 0)%Z; simpl;
    match goal with |- context [if ?c then _ else _] => destruct c end; reflexivity.
Qed.

Lemma withDefaultQuotas_concurrency limit ps :
  ConcurrencyQuota (Resources (withDefaultQuotas limit ps))
  = if (ConcurrencyQuota (Resources ps) =? 0)%Z then Z.of_nat (size (Roots ps))
    else ConcurrencyQuota (Resources ps).
Proof.
  unfold withDefaultQuotas.
  destruct (MemoryBytesQuota (Resources ps) =? 0)%Z; simpl;
    destruct (ConcurrencyQuota (Resources ps) =? 0)%Z; reflexivity.
Qed.

(** ** The pipeline of [Plan], step by step *)

Section PlanSteps.

Variable heuristicPlan : heuristicPlanner → SpecPtr → M Store (option SpecPtr * option Error).
Variable ComputeBounds : Ptr → M Store (option Error).
Variable CheckIntegrity : SpecPtr → M Store (option Error).

Local Abbreviation Plan' := (Plan heuristicPlan ComputeBounds CheckIntegrity).
Local Abbreviation ensureValid' := (ensureValid CheckIntegrity).
Local Abbreviation PlanRun' := (PlanRun heuristicPlan ComputeBounds CheckIntegrity).

Lemma Plan_heuristic_error pp spec s ts e s1 :
  heuristicPlan (heuristic pp) spec s = Ret ((ts, Some e), s1) →
  Plan' pp spec s = Ret ((None, Some e), s1).
Proof. intros H1. unfold Plan. by rewrite (bind_run _ _ _ _ _ H1). Qed.

Lemma Plan_bounds_error pp spec s transformedSpec s1 e s2 :
  heuristicPlan (heuristic pp) spec s = Ret ((Some transformedSpec, None), s1) →
  BottomUpWalk transformedSpec ComputeBounds s1 = Ret (Some e, s2) →
  Plan' pp spec s = Ret ((None, Some e), s2).
Proof.
  intros H1 H2. unfold Plan. rewrite (bind_run _ _ _ _ _ H1). simpl.
  erewrite bind_run; [|reflexivity]. by rewrite (bind_run _ _ _ _ _ H2).
Qed.

Lemma Plan_validation_error pp spec s transformedSpec s1 s2 e s3 :
  heuristicPlan (heuristic pp) spec s = Ret ((Some transformedSpec, None), s1) →
  BottomUpWalk transformedSpec ComputeBounds s1 = Ret (None, s2) →
  ensureValid' pp transformedSpec s2 = Ret (Some e, s3) →
  Plan' pp spec s = Ret ((None, Some e), s3).
Proof.
  intros H1 H2 H3. unfold Plan. rewrite (bind_run _ _ _ _ _ H1). simpl.
  erewrite bind_run; [|reflexivity]. rewrite (bind_run _ _ _ _ _ H2).
  by rewrite (bind_run _ _ _ _ _ H3).
Qed.

Lemma Plan_success pp spec s transformedSpec s1 s2 s3 ps :
  heuristicPlan (heuristic pp) spec s = Ret ((Some transformedSpec, None), s1) →
  BottomUpWalk transformedSpec ComputeBounds s1 = Ret (None, s2) →
  ensureValid' pp transformedSpec s2 = Ret (None, s3) →
  plans s3 !! transformedSpec = Some ps →
  Plan' pp spec s = Ret ((Some transformedSpec, None), finished pp transformedSpec ps s3).
Proof.
  intros H1 H2 H3 Hps. unfold Plan. rewrite (bind_run _ _ _ _ _ H1). simpl.
  erewrite bind_run; [|reflexivity]. rewrite (bind_run _ _ _ _ _ H2).
  rewrite (bind_run _ _ _ _ _ H3).
  by rewrite (bind_run _ _ _ _ _ (updateQuotas_run pp _ _ _ Hps)).
Qed.

Lemma Plan_Ret pp spec s r s' : Plan' pp spec s = Ret (r, s') → PlanRun' pp spec s r s'.
Proof.
  unfold Plan. intros ([ts herr] & s1 & H1 & Hk)%bind_Ret. simpl in Hk.
  destruct herr as [e|].
  { injection Hk as <- <-. by eapply run_heuristic_error. }
  apply bind_Ret in Hk as (transformedSpec & s1' & Hnn & Hk).
  destruct ts as [ts|]; [|discriminate]. injection Hnn as <- <-.
  apply bind_Ret in Hk as (berr & s2 & H2 & Hk).
  destruct berr as [e|].
  { injection Hk as <- <-. by eapply run_bounds_error. }
  apply bind_Ret in Hk as (verr & s3 & H3 & Hk).
  destruct verr as [e|].
  { injection Hk as <- <-. by eapply run_validation_error. }
  apply bind_Ret in Hk as ([] & s4 & H4 & Hk). injection Hk as <- <-.
  assert (is_Some (plans s3 !! ts)) as [ps Hps].
  { unfold updateQuotas in H4. apply bind_Ret in H4 as (ps & ? & Hg & _).
    apply getPlan_Ret in Hg as [Hg _]. by eexists. }
  rewrite (updateQuotas_run pp ts s3 ps Hps) in H4. injection H4 as <-.
  by eapply run_success.
Qed.

Lemma ensureValid_disabled pp transformedSpec s :
  disableValidation pp = true → ensureValid' pp transformedSpec s = Ret (None, s).
Proof. unfold ensureValid. by intros ->. Qed.

Lemma ensureValid_integrity_error pp transformedSpec s e s3 :
  disableValidation pp = false →
  CheckIntegrity transformedSpec s = Ret (Some e, s3) →
  ensureValid' pp transformedSpec s = Ret (Some e, s3).
Proof.
  unfold ensureValid. intros -> H1. simpl. by rewrite (bind_run _ _ _ _ _ H1).
Qed.

Lemma ensureValid_enabled pp transformedSpec s s3 ps :
  disableValidation pp = false →
  CheckIntegrity transformedSpec s = Ret (None, s3) →
  plans s3 !! transformedSpec = Some ps →
  ensureValid' pp transformedSpec s
  = Ret (firstError (nodes s3) (bottomUpOrder (nodes s3) (Roots ps)), s3).
Proof.
  unfold ensureValid. intros -> H1 Hps. simpl.
  rewrite (bind_run _ _ _ _ _ H1). by apply validatePhysicalPlan_run.
Qed.

Lemma ensureValid_passed pp transformedSpec s s3 :
  disableValidation pp = false →
  ensureValid' pp transformedSpec s = Ret (None, s3) →
  CheckIntegrity transformedSpec s = Ret (None, s3)
  ∧ ∃ ps, plans s3 !! transformedSpec = Some ps
          ∧ firstError (nodes s3) (bottomUpOrder (nodes s3) (Roots ps)) = None.
Proof.
  unfold ensureValid. intros -> H. simpl in H.
  apply bind_Ret in H as (cerr & s2 & H1 & Hk).
  destruct cerr as [e|]; [discriminate|].
  destruct (BottomUpWalk_Ret _ _ _ _ _ Hk) as [ps Hps].
  rewrite (validatePhysicalPlan_run _ _ _ Hps) in Hk. injection Hk as Hf <-.
  split; [done|]. eauto.
Qed.

End PlanSteps.

(** ** What the validation says about a node *)

Lemma notConverted_names id : names (notConverted id) id.
Proof.
  exists ("logical node " +:+ dquote),
         (dquote +:+ " could not be converted to a physical node").
  reflexivity.
Qed.

Lemma validateNode_passes n :
  validateNode n = None →
  isPhysical n = true
  ∨ ∃ validator, asPostPhysicalValidator (procedureSpec n) = Some validator
                 ∧ validator (ID n) = None.
Proof.
  unfold validateNode.
  destruct (asPostPhysicalValidator (procedureSpec n)) as [validator|]; [eauto|].
  destruct (isPhysical n); [auto|discriminate].
Qed.

Lemma validateNode_unconverted n :
  isPhysical n = false → asPostPhysicalValidator (procedureSpec n) = None →
  validateNode n = Some (notConverted (ID n)).
Proof. unfold validateNode. by intros -> ->. Qed.

(** ** The planner *)

Section PlanProperties.

Variable heuristicPlan : heuristicPlanner → SpecPtr → M Store (option SpecPtr * option Error).
Variable ComputeBounds : Ptr → M Store (option Error).
Variable CheckIntegrity : SpecPtr → M Store (option Error).
Variable ruleNameToPhysicalRule : list Rule.

Local Abbreviation Plan' := (Plan heuristicPlan ComputeBounds CheckIntegrity).
Local Abbreviation ensureValid' := (ensureValid CheckIntegrity).
Local Abbreviation NewPhysicalPlanner' := (NewPhysicalPlanner ruleNameToPhysicalRule).

(** A reachable node that fails validation makes the whole plan fail, with
    the error of the first node of the walk that fails. *)
Lemma Plan_rejects pp spec s transformedSpec s1 s2 s3 ps x n e0 :
  disableValidation pp = false →
  heuristicPlan (heuristic pp) spec s = Ret ((Some transformedSpec, None), s1) →
  BottomUpWalk transformedSpec ComputeBounds s1 = Ret (None, s2) →
  CheckIntegrity transformedSpec s2 = Ret (None, s3) →
  plans s3 !! transformedSpec = Some ps →
  reachable (nodes s3) (Roots ps) x →
  nodes s3 !! x = Some n →
  validateNode n = Some e0 →
  ∃ e, firstError (nodes s3) (bottomUpOrder (nodes s3) (Roots ps)) = Some e
       ∧ Plan' pp spec s = Ret ((None, Some e), s3).
Proof.
  intros Hv H1 H2 H3 Hps Hx Hn He0.
  destruct (firstError_Some (nodes s3) (bottomUpOrder (nodes s3) (Roots ps)) x n e0)
    as [e He]; [|done|done|].
  { apply bottomUpOrder_complete; [done|by eexists]. }
  exists e. split; [done|].
  eapply Plan_validation_error; [exact H1|exact H2|].
  rewrite (ensureValid_enabled _ _ _ _ _ _ Hv H3 Hps). by rewrite He.
Qed.

(** C1: when [Plan] returns a plan with validation enabled, every node
    reachable from a root of that plan is a physical node, or its procedure
    spec has a [PostPhysicalValidate] hook and the hook returned no error
    for it. *)
Theorem Plan_postcondition pp spec s transformedSpec s' :
  disableValidation pp = false →
  Plan' pp spec s = Ret ((Some transformedSpec, None), s') →
  ∃ ps, plans s' !! transformedSpec = Some ps
        ∧ ∀ x n, reachable (nodes s') (Roots ps) x → nodes s' !! x = Some n →
            isPhysical n = true
            ∨ ∃ validator, asPostPhysicalValidator (procedureSpec n) = Some validator
                           ∧ validator (ID n) = None.
Proof.
  intros Hv Hrun. apply Plan_Ret in Hrun.
  inversion Hrun as [| | |t s1 s2 s3 ps H1 H2 H3 Hps]; subst.
  destruct (ensureValid_passed _ _ _ _ _ Hv H3) as (_ & ps' & Hps' & Hfirst).
  assert (ps' = ps) as -> by congruence.
  exists (withDefaultQuotas (defaultMemoryLimit pp) ps). split.
  - unfold finished. simpl. apply list_lookup_insert_eq. by eapply lookup_lt_Some.
  - rewrite withDefaultQuotas_Roots. unfold finished. simpl. intros x n Hx Hn.
    apply validateNode_passes.
    eapply firstError_None; [exact Hfirst| |exact Hn].
    apply bottomUpOrder_complete; [done|by eexists].
Qed.

(** C3: when the steps before it returned no error, [Plan] returns the plan
    with both quotas defaulted: the memory quota is the planner's default
    limit when the input's was 0 and the input's otherwise; the concurrency
    quota is the number of roots of the output plan when the input's was 0
    and the input's otherwise.  [WithDefaultMemoryLimit] sets that default
    limit.  (The steps before leave the resources of the plan alone.) *)
Theorem Plan_quota_defaulting pp spec s input transformedSpec s1 s2 s3 ps memBytes :
  plans s !! spec = Some input →
  heuristicPlan (heuristic pp) spec s = Ret ((Some transformedSpec, None), s1) →
  BottomUpWalk transformedSpec ComputeBounds s1 = Ret (None, s2) →
  ensureValid' pp transformedSpec s2 = Ret (None, s3) →
  plans s3 !! transformedSpec = Some ps →
  Resources ps = Resources input →
  defaultMemoryLimit (WithDefaultMemoryLimit memBytes pp) = memBytes
  ∧ ∃ s' output,
      Plan' pp spec s = Ret ((Some transformedSpec, None), s')
      ∧ plans s' !! transformedSpec = Some output
      ∧ Roots output = Roots ps
      ∧ MemoryBytesQuota (Resources output)
        = (if (MemoryBytesQuota (Resources input) =? 0)%Z then defaultMemoryLimit pp
           else MemoryBytesQuota (Resources input))
      ∧ ConcurrencyQuota (Resources output)
        = (if (ConcurrencyQuota (Resources input) =? 0)%Z
           then Z.of_nat (size (Roots output))
           else ConcurrencyQuota (Resources input)).
Proof.
  intros Hin H1 H2 H3 Hps Hres. split; [reflexivity|].
  exists (finished pp transformedSpec ps s3),
         (withDefaultQuotas (defaultMemoryLimit pp) ps).
  split; [by eapply Plan_success|].
  split; [unfold finished; simpl; apply list_lookup_insert_eq; by eapply lookup_lt_Some|].
  rewrite withDefaultQuotas_Roots, withDefaultQuotas_memory,
    withDefaultQuotas_concurrency, Hres.
  done.
Qed.

(** C4, as amended: when rewriting, the bounds walk and the integrity check
    returned no error, validation is enabled, and a reachable node is not
    physical and has no [PostPhysicalValidate] hook, then [Plan] fails.  Its
    error is the one the validation gives at the first node of the walk
    that fails: the walk order splits at a reachable node whose verdict is
    the error, and every node visited before that node passes.  So when
    every node visited before the offending node passes, the error is the
    one that names the offending node's identifier. *)
Theorem Plan_incomplete_conversion pp spec s transformedSpec s1 s2 s3 ps x n :
  disableValidation pp = false →
  heuristicPlan (heuristic pp) spec s = Ret ((Some transformedSpec, None), s1) →
  BottomUpWalk transformedSpec ComputeBounds s1 = Ret (None, s2) →
  CheckIntegrity transformedSpec s2 = Ret (None, s3) →
  plans s3 !! transformedSpec = Some ps →
  reachable (nodes s3) (Roots ps) x →
  nodes s3 !! x = Some n →
  isPhysical n = false →
  asPostPhysicalValidator (procedureSpec n) = None →
  ∃ e, Plan' pp spec s = Ret ((None, Some e), s3)
       ∧ (∃ earlier y later m,
            bottomUpOrder (nodes s3) (Roots ps) = earlier ++ y :: later
            ∧ reachable (nodes s3) (Roots ps) y
            ∧ nodes s3 !! y = Some m
            ∧ validateNode m = Some e
            ∧ ∀ z k, z ∈ earlier → nodes s3 !! z = Some k → validateNode k = None)
       ∧ (∀ before after,
            bottomUpOrder (nodes s3) (Roots ps) = before ++ x :: after →
            (∀ y m, y ∈ before → nodes s3 !! y = Some m → validateNode m = None) →
            e = notConverted (ID n) ∧ names e (ID n)).
Proof.
  intros Hv H1 H2 H3 Hps Hx Hn Hlog Hhook.
  pose proof (validateNode_unconverted n Hlog Hhook) as Hverdict.
  destruct (Plan_rejects pp spec s transformedSpec s1 s2 s3 ps x n _
              Hv H1 H2 H3 Hps Hx Hn Hverdict) as (e & He & Hrun).
  exists e. split; [done|]. split.
  - destruct (firstError_first _ _ _ He) as (l1 & y & l2 & m & Hl & Hm & Hem & Hbefore).
    exists l1, y, l2, m. split; [done|]. split; [|done].
    apply (bottomUpOrder_sound (nodes s3) (Roots ps) y).
    rewrite Hl. apply elem_of_app. right. by left.
  - intros before after Hl Hbefore.
    rewrite Hl, (firstError_app_passing _ _ _ _ _ Hbefore Hn), Hverdict in He.
    injection He as <-. split; [done|]. apply notConverted_names.
Qed.

(** C6: [Plan] returns a plan or an error, never both and never neither.
    When the heuristic planner, the bounds walk, the integrity check or the
    validation walk returns an error, [Plan] returns no plan and that
    error, and the store is the one that step left: no later step ran, the
    defaulting of the quotas included. *)
Theorem Plan_plan_or_error pp spec s :
  (∀ r s', Plan' pp spec s = Ret (r, s') →
     (∃ transformedSpec, r = (Some transformedSpec, None)) ∨ (∃ e, r = (None, Some e)))
  ∧ (∀ ts e s1,
       heuristicPlan (heuristic pp) spec s = Ret ((ts, Some e), s1) →
       Plan' pp spec s = Ret ((None, Some e), s1))
  ∧ (∀ transformedSpec s1 e s2,
       heuristicPlan (heuristic pp) spec s = Ret ((Some transformedSpec, None), s1) →
       BottomUpWalk transformedSpec ComputeBounds s1 = Ret (Some e, s2) →
       Plan' pp spec s = Ret ((None, Some e), s2))
  ∧ (∀ transformedSpec s1 s2 e s3,
       disableValidation pp = false →
       heuristicPlan (heuristic pp) spec s = Ret ((Some transformedSpec, None), s1) →
       BottomUpWalk transformedSpec ComputeBounds s1 = Ret (None, s2) →
       CheckIntegrity transformedSpec s2 = Ret (Some e, s3) →
       Plan' pp spec s = Ret ((None, Some e), s3))
  ∧ (∀ transformedSpec s1 s2 s3 e s4,
       disableValidation pp = false →
       heuristicPlan (heuristic pp) spec s = Ret ((Some transformedSpec, None), s1) →
       BottomUpWalk transformedSpec ComputeBounds s1 = Ret (None, s2) →
       CheckIntegrity transformedSpec s2 = Ret (None, s3) →
       validatePhysicalPlan transformedSpec s3 = Ret (Some e, s4) →
       Plan' pp spec s = Ret ((None, Some e), s4)).
Proof.
  split; [|split; [|split; [|split]]].
  - intros r s' Hrun. apply Plan_Ret in Hrun. inversion Hrun; eauto.
  - intros. by eapply Plan_heuristic_error.
  - intros. by eapply Plan_bounds_error.
  - intros t s1 s2 e s3 Hv H1 H2 H3.
    eapply Plan_validation_error; [exact H1|exact H2|].
    by apply ensureValid_integrity_error.
  - intros t s1 s2 s3 e s4 Hv H1 H2 H3 H4.
    eapply Plan_validation_error; [exact H1|exact H2|].
    unfold ensureValid. rewrite Hv. simpl. by rewrite (bind_run _ _ _ _ _ H3).
Qed.

(** The options of the package leave validation disabled once it is. *)
Lemma options_keepDisabled memBytes rs :
  keepsDisabled (WithDefaultMemoryLimit memBytes)
  ∧ keepsDisabled (OnlyPhysicalRules rs)
  ∧ keepsDisabled DisableValidation.
Proof. unfold keepsDisabled. repeat split; intros pp Hpp; simpl; done. Qed.

Lemma foldl_keepsDisabled (options : list PhysicalOption) pp :
  Forall keepsDisabled options →
  disableValidation pp = true →
  disableValidation (foldl (λ pp opt, opt pp) pp options) = true.
Proof.
  intros Hall. revert pp. induction Hall as [|opt options Hopt _ IH]; intros pp Hpp.
  - done.
  - simpl. apply IH, Hopt, Hpp.
Qed.

(** C7: a planner made with the option [DisableValidation], followed by
    options that do not switch validation back on (none of the package
    does), has its flag set; and with the flag set [Plan] runs neither
    [CheckIntegrity] nor the validation walk: whatever they would return,
    once rewriting and the bounds walk returned no error [Plan] returns the
    plan, and its store is the one the bounds walk left with the quotas
    defaulted.  So a node that is still logical there remains logical in the
    output, whether or not its spec is physical-capable or has a hook. *)
Theorem Plan_without_validation before after pp spec s transformedSpec s1 s2 ps :
  disableValidation pp = true →
  heuristicPlan (heuristic pp) spec s = Ret ((Some transformedSpec, None), s1) →
  BottomUpWalk transformedSpec ComputeBounds s1 = Ret (None, s2) →
  plans s2 !! transformedSpec = Some ps →
  (Forall keepsDisabled after →
   disableValidation (NewPhysicalPlanner' (before ++ DisableValidation :: after)) = true)
  ∧ ∃ s', Plan' pp spec s = Ret ((Some transformedSpec, None), s')
          ∧ s' = finished pp transformedSpec ps s2
          ∧ ∀ x ln, nodes s2 !! x = Some (Logical ln) → nodes s' !! x = Some (Logical ln).
Proof.
  intros Hv H1 H2 Hps. split.
  { intros Hafter. unfold NewPhysicalPlanner. rewrite foldl_app. simpl.
    by apply foldl_keepsDisabled. }
  exists (finished pp transformedSpec ps s2). split; [|split; [done|]].
  - eapply Plan_success; [exact H1|exact H2| |exact Hps].
    by apply ensureValid_disabled.
  - unfold finished. simpl. auto.
Qed.

(** C9: a node whose procedure spec has the [PostPhysicalValidate] hook is
    judged by the hook's result alone, whatever its variant: the
    validation returns what the hook returns for the node's identifier.
    So a reachable node, physical or not, whose hook returns an error makes
    [Plan] fail, and a node that is still logical and whose hook returns no
    error passes. *)
Theorem validation_by_hook_alone pp spec s transformedSpec s1 s2 s3 ps x n validator :
  asPostPhysicalValidator (procedureSpec n) = Some validator →
  validateNode n = validator (ID n)
  ∧ (disableValidation pp = false →
     heuristicPlan (heuristic pp) spec s = Ret ((Some transformedSpec, None), s1) →
     BottomUpWalk transformedSpec ComputeBounds s1 = Ret (None, s2) →
     CheckIntegrity transformedSpec s2 = Ret (None, s3) →
     plans s3 !! transformedSpec = Some ps →
     reachable (nodes s3) (Roots ps) x →
     nodes s3 !! x = Some n →
     is_Some (validator (ID n)) →
     ∃ e, Plan' pp spec s = Ret ((None, Some e), s3))
  ∧ (isPhysical n = false → validator (ID n) = None → validateNode n = None).
Proof.
  intros Hhook.
  assert (validateNode n = validator (ID n)) as Hjudge.
  { unfold validateNode. by rewrite Hhook. }
  split; [done|]. split.
  - intros Hv H1 H2 H3 Hps Hx Hn [e0 He0].
    destruct (Plan_rejects pp spec s transformedSpec s1 s2 s3 ps x n e0)
      as (e & _ & Hrun); try done.
    + by rewrite Hjudge.
    + by exists e.
  - intros _ Hok. by rewrite Hjudge.
Qed.

End PlanProperties.

(** ** Replacing a node *)

Lemma replacePtr_idemp old new l :
  replacePtr old new (replacePtr old new l) = replacePtr old new l.
Proof.
  unfold replacePtr. rewrite <- list_fmap_compose. apply list_fmap_ext.
  intros i q _. simpl. repeat case_decide; congruence.
Qed.

Lemma mapSuccessors_idemp old new n :
  mapSuccessors (replacePtr old new) (mapSuccessors (replacePtr old new) n)
  = mapSuccessors (replacePtr old new) n.
Proof.
  destruct n; unfold mapSuccessors, Successors, Predecessors; simpl;
    by rewrite replacePtr_idemp.
Qed.

Lemma mapPredecessors_idemp old new n :
  mapPredecessors (replacePtr old new) (mapPredecessors (replacePtr old new) n)
  = mapPredecessors (replacePtr old new) n.
Proof.
  destruct n; unfold mapPredecessors, Successors, Predecessors; simpl;
    by rewrite replacePtr_idemp.
Qed.

(** Altering the cells listed in [l] with an idempotent [f] applies [f] once
    to each listed cell and leaves the others. *)
Lemma foldl_alter_lookup (f : PlanNode → PlanNode) (l : list Ptr) :
  (∀ n, f (f n) = f n) →
  ∀ (h : list PlanNode) (q : Ptr),
    foldl (λ acc i, alter f i acc) h l !! q
    = (if decide (q ∈ l) then f else id) <$> h !! q.
Proof.
  intros Hf. induction l as [|i l IH]; intros h q; simpl.
  - destruct (decide (q ∈ [])) as [[]%elem_of_nil|_]. by destruct (h !! q).
  - rewrite IH. destruct (decide (q = i)) as [->|Hne].
    + rewrite list_lookup_alter_eq, (decide_True (P := i ∈ i :: l)) by by left.
      destruct (h !! i) as [n|]; simpl; [|done].
      case_decide; simpl; by rewrite ?Hf.
    + rewrite list_lookup_alter_ne by done.
      destruct (decide (q ∈ l)) as [Hin|Hnin].
      * by rewrite (decide_True (P := q ∈ i :: l)) by by right.
      * rewrite (decide_False (P := q ∈ i :: l)); [done|].
        intros [?|?]%elem_of_cons; done.
Qed.

(** The cell at [q] once the edges towards [old] are rewired, before [new]
    takes over the edges of [old] and [old] is detached. *)
Lemma ReplaceNode_lookup old new h o q :
  h !! old = Some o →
  old ≠ new →
  ReplaceNode old new h !! q
  = (if decide (q = old) then setEdges noEdges
     else if decide (q = new) then setEdges (nodeEdges o) else id)
    <$> ((if decide (q ∈ Successors o) then mapPredecessors (replacePtr old new) else id)
         <$> ((if decide (q ∈ Predecessors o) then mapSuccessors (replacePtr old new) else id)
              <$> h !! q)).
Proof.
  intros Ho Hne. unfold ReplaceNode. rewrite Ho.
  destruct (decide (q = old)) as [->|Hq].
  - rewrite list_lookup_alter_eq, list_lookup_alter_ne by done.
    rewrite !foldl_alter_lookup;
      [done|apply mapSuccessors_idemp|apply mapPredecessors_idemp].
  - rewrite list_lookup_alter_ne by done.
    destruct (decide (q = new)) as [->|Hq'].
    + rewrite list_lookup_alter_eq.
      rewrite !foldl_alter_lookup;
        [done|apply mapSuccessors_idemp|apply mapPredecessors_idemp].
    + rewrite list_lookup_alter_ne by done.
      rewrite !foldl_alter_lookup;
        [|apply mapSuccessors_idemp|apply mapPredecessors_idemp].
      by destruct ((if decide (q ∈ Successors o) then _ else _) <$> _).
Qed.

(** ** The universal conversion rule *)

(** The run of [Rewrite] on a logical node whose spec is physical-capable. *)
Lemma Rewrite_converts_run pn s ln pspec :
  nodes s !! pn = Some (Logical ln) →
  asPhysicalProcedureSpec (l_Spec ln) = Some pspec →
  physicalConverterRule.Rewrite pn s
  = Ret ((length (nodes s), true, None),
         mkStore (ReplaceNode pn (length (nodes s))
                    (nodes s ++ [Physical (mkPhysicalPlanNode noEdges (l_bounds ln)
                                             ("phys_" +:+ l_id ln) pspec [] mkPhysicalAttributes)]))
                 (plans s)).
Proof.
  intros Hn Hp. unfold physicalConverterRule.Rewrite. by rewrite Hn, Hp.
Qed.

Lemma Rewrite_converts_new pn s ln pspec :
  nodes s !! pn = Some (Logical ln) →
  ReplaceNode pn (length (nodes s))
    (nodes s ++ [Physical (mkPhysicalPlanNode noEdges (l_bounds ln)
                             ("phys_" +:+ l_id ln) pspec [] mkPhysicalAttributes)])
    !! length (nodes s)
  = Some (Physical (mkPhysicalPlanNode (l_edges ln) (l_bounds ln)
                      ("phys_" +:+ l_id ln) pspec [] mkPhysicalAttributes)).
Proof.
  intros Hn. pose proof (lookup_lt_Some _ _ _ Hn) as Hlt.
  erewrite ReplaceNode_lookup; [|by apply lookup_app_l_Some|lia].
  rewrite decide_False by lia. rewrite decide_True by done.
  rewrite lookup_app_r by lia. rewrite Nat.sub_diag. simpl.
  repeat case_decide; reflexivity.
Qed.

(** C2: on a logical node whose spec is physical-capable, [Rewrite] makes a
    new physical node with the same spec, the same bounds and the identifier
    of the old node prefixed with [phys_]; it reports a change and no error.
    In the store it leaves, the new node has the edges of the old one, the
    old node has none, and every other node is as it was except that its
    edges to the old node now lead to the new one. *)
Theorem Rewrite_converts pn s ln pspec :
  nodes s !! pn = Some (Logical ln) →
  asPhysicalProcedureSpec (l_Spec ln) = Some pspec →
  ∃ s', physicalConverterRule.Rewrite pn s = Ret ((length (nodes s), true, None), s')
    ∧ dynSpec pspec = l_Spec ln
    ∧ plans s' = plans s
    ∧ nodes s' !! length (nodes s)
      = Some (Physical (mkPhysicalPlanNode (l_edges ln) (l_bounds ln)
                          ("phys_" +:+ l_id ln) pspec [] mkPhysicalAttributes))
    ∧ nodes s' !! pn
      = Some (Logical (mkLogicalPlanNode noEdges (l_bounds ln) (l_id ln) (l_Spec ln)))
    ∧ ∀ q n, q ≠ pn → nodes s !! q = Some n →
        ∃ n', nodes s' !! q = Some n'
              ∧ ID n' = ID n ∧ procedureSpec n' = procedureSpec n ∧ Bounds n' = Bounds n
              ∧ isPhysical n' = isPhysical n ∧ isLogical n' = isLogical n
              ∧ Successors n'
                = (if decide (q ∈ predecessors (l_edges ln))
                   then replacePtr pn (length (nodes s)) (Successors n) else Successors n)
              ∧ Predecessors n'
                = (if decide (q ∈ successors (l_edges ln))
                   then replacePtr pn (length (nodes s)) (Predecessors n) else Predecessors n).
Proof.
  intros Hn Hp. pose proof (lookup_lt_Some _ _ _ Hn) as Hlt.
  eexists. split; [by apply Rewrite_converts_run|]. simpl.
  split.
  { unfold asPhysicalProcedureSpec in Hp.
    destruct (CostMethod (l_Spec ln)); [|discriminate]. by injection Hp as <-. }
  split; [done|]. split; [by apply Rewrite_converts_new|]. split.
  - erewrite ReplaceNode_lookup; [|by apply lookup_app_l_Some|lia].
    rewrite decide_True by done. rewrite (lookup_app_l_Some _ _ _ _ Hn). simpl.
    repeat case_decide; reflexivity.
  - intros q n Hq Hqn. pose proof (lookup_lt_Some _ _ _ Hqn) as Hqlt.
    erewrite ReplaceNode_lookup; [|by apply lookup_app_l_Some|lia].
    rewrite decide_False by done. rewrite decide_False by lia.
    rewrite (lookup_app_l_Some _ _ _ _ Hqn). simpl.
    change (Predecessors (Logical ln)) with (predecessors (l_edges ln)).
    change (Successors (Logical ln)) with (successors (l_edges ln)).
    eexists. split; [reflexivity|].
    destruct n; repeat case_decide; repeat split; reflexivity.
Qed.

(** C5: [Rewrite] changes nothing in exactly two cases.  On a node that is
    already physical, and on a logical node whose spec is not
    physical-capable, it returns the node, no change and no error, and
    leaves the store alone; whenever it reports no change, the node is in
    one of these two cases.  Applied to the node it returned, in the store
    it left, it reports no change. *)
Theorem Rewrite_noop pn s n :
  nodes s !! pn = Some n →
  (isPhysical n = true → physicalConverterRule.Rewrite pn s = Ret ((pn, false, None), s))
  ∧ (∀ ln, n = Logical ln → asPhysicalProcedureSpec (l_Spec ln) = None →
       physicalConverterRule.Rewrite pn s = Ret ((pn, false, None), s))
  ∧ (∀ q e s', physicalConverterRule.Rewrite pn s = Ret ((q, false, e), s') →
       (isPhysical n = true
        ∨ ∃ ln, n = Logical ln ∧ asPhysicalProcedureSpec (l_Spec ln) = None)
       ∧ q = pn ∧ e = None ∧ s' = s)
  ∧ (∀ q changed e s', physicalConverterRule.Rewrite pn s = Ret ((q, changed, e), s') →
       physicalConverterRule.Rewrite q s' = Ret ((q, false, None), s')).
Proof.
  intros Hn. repeat split.
  - destruct n; try discriminate. intros _.
    unfold physicalConverterRule.Rewrite. by rewrite Hn.
  - intros ln -> Hp. unfold physicalConverterRule.Rewrite. by rewrite Hn, Hp.
  - destruct n as [ln|ppn|fn]; [|by left|].
    + destruct (asPhysicalProcedureSpec (l_Spec ln)) as [pspec|] eqn:Hp.
      * rewrite (Rewrite_converts_run _ _ _ _ Hn Hp) in H. discriminate.
      * right. eauto.
    + unfold physicalConverterRule.Rewrite in H. rewrite Hn in H. discriminate.
  - revert H. unfold physicalConverterRule.Rewrite. rewrite Hn.
    destruct n as [ln|ppn|fn]; [|congruence|discriminate].
    destruct (asPhysicalProcedureSpec (l_Spec ln)); [discriminate|congruence].
  - revert H. unfold physicalConverterRule.Rewrite. rewrite Hn.
    destruct n as [ln|ppn|fn]; [|congruence|discriminate].
    destruct (asPhysicalProcedureSpec (l_Spec ln)); [discriminate|congruence].
  - revert H. unfold physicalConverterRule.Rewrite. rewrite Hn.
    destruct n as [ln|ppn|fn]; [|congruence|discriminate].
    destruct (asPhysicalProcedureSpec (l_Spec ln)); [discriminate|congruence].
  - intros q changed e s' Hrun.
    destruct n as [ln|ppn|fn].
    + destruct (asPhysicalProcedureSpec (l_Spec ln)) as [pspec|] eqn:Hp.
      * rewrite (Rewrite_converts_run _ _ _ _ Hn Hp) in Hrun.
        injection Hrun as <- <- <- <-.
        unfold physicalConverterRule.Rewrite. simpl.
        by rewrite (Rewrite_converts_new _ _ _ pspec Hn).
      * unfold physicalConverterRule.Rewrite in Hrun. rewrite Hn, Hp in Hrun.
        injection Hrun as <- <- <- <-.
        unfold physicalConverterRule.Rewrite. by rewrite Hn, Hp.
    + unfold physicalConverterRule.Rewrite in Hrun. rewrite Hn in Hrun.
      injection Hrun as <- <- <- <-.
      unfold physicalConverterRule.Rewrite. by rewrite Hn.
    + unfold physicalConverterRule.Rewrite in Hrun. rewrite Hn in Hrun. discriminate.
Qed.

(** C10: [Rewrite] panics exactly when the node it is handed is neither a
    physical nor a logical node; handed a physical or a logical node, it
    returns, and it never returns an error. *)
Theorem Rewrite_panics_iff pn s :
  (physicalConverterRule.Rewrite pn s = Panic
   ↔ ¬ ∃ n, nodes s !! pn = Some n ∧ (isPhysical n || isLogical n) = true)
  ∧ (∀ r s', physicalConverterRule.Rewrite pn s = Ret (r, s') → r.2 = None).
Proof.
  unfold physicalConverterRule.Rewrite. split; [split|].
  - intros Hpanic (n & Hn & Hkind). rewrite Hn in Hpanic.
    destruct n as [ln|ppn|fn]; [|discriminate|discriminate].
    by destruct (asPhysicalProcedureSpec (l_Spec ln)).
  - intros Hnot. destruct (nodes s !! pn) as [[ln|ppn|fn]|] eqn:Hn; try done.
    + destruct Hnot. eauto.
    + destruct Hnot. eauto.
  - intros r s'. destruct (nodes s !! pn) as [[ln|ppn|fn]|]; try discriminate.
    + destruct (asPhysicalProcedureSpec (l_Spec ln)); by intros [= <- <-].
    + by intros [= <- <-].
Qed.

(** ** The formatter *)

Lemma append_assoc (a b c : string) : (a +:+ b) +:+ c = a +:+ b +:+ c.
Proof.
  induction a as [|ch a IH]; [done|].
  change (String ch ((a +:+ b) +:+ c) = String ch (a +:+ b +:+ c)). by rewrite IH.
Qed.

Lemma append_empty_r (a : string) : a +:+ "" = a.
Proof.
  induction a as [|ch a IH]; [done|].
  change (String ch (a +:+ "") = String ch a). by rewrite IH.
Qed.

Lemma joinLines_app l1 l2 : joinLines (l1 ++ l2) = joinLines l1 +:+ joinLines l2.
Proof.
  induction l1 as [|x l1 IH]; [done|].
  change (joinLines ((x :: l1) ++ l2)) with (x +:+ LF +:+ joinLines (l1 ++ l2)).
  change (joinLines (x :: l1)) with (x +:+ LF +:+ joinLines l1).
  by rewrite IH, !append_assoc.
Qed.

Lemma closedb_lookup h x n q :
  closedb h = true → h !! x = Some n → q ∈ Predecessors n → is_Some (h !! q).
Proof.
  unfold closedb. rewrite forallb_forall. intros Hall Hx Hq.
  apply list_elem_of_lookup_2, list_elem_of_In, Hall in Hx.
  rewrite forallb_forall in Hx. apply list_elem_of_In, Hx in Hq.
  apply bool_decide_eq_true in Hq. by apply lookup_lt_is_Some.
Qed.

(** Writing the lines of a list one after the other. *)
Lemma forEach_Fprintf lines st :
  forEach lines (λ e, Fprintf (e +:+ LF)) st
  = Ret (tt, mkFormatState (fm_store st) (fm_out st +:+ joinLines lines) (fm_edges st)).
Proof.
  revert st. induction lines as [|e lines IH]; intros st; simpl.
  - unfold ret. rewrite append_empty_r. by destruct st.
  - erewrite bind_run; [|reflexivity]. rewrite IH. simpl.
    by rewrite !append_assoc.
Qed.

(** Collecting the edges of one node. *)
Lemma forEach_appendEdge (node : PlanNode) preds st :
  (∀ q, q ∈ preds → is_Some (nodes (fm_store st) !! q)) →
  forEach preds (λ pred,
    predNode <- getNode pred ;;
    appendEdge ("  " +:+ ID predNode +:+ " -> " +:+ ID node)) st
  = Ret (tt, mkFormatState (fm_store st) (fm_out st)
               (fm_edges st
                ++ ((λ q, "  " +:+ idOf (nodes (fm_store st)) q +:+ " -> " +:+ ID node)
                    <$> preds))).
Proof.
  revert st. induction preds as [|q preds IH]; intros st Hv; simpl.
  - unfold ret. rewrite app_nil_r. by destruct st.
  - destruct (Hv q) as [m Hm]; [by left|].
    erewrite bind_run.
    2:{ erewrite bind_run; [reflexivity|]. by apply (getNode_run q st m). }
    rewrite IH by (intros; apply Hv; by right). simpl.
    unfold idOf at 2. rewrite Hm. by rewrite <- app_assoc.
Qed.




(** ** The properties at work on the sample graphs *)

Lemma prefix_append (a b : string) : String.prefix a (a +:+ b) = true.
Proof.
  induction a as [|c a IH]; [by destruct b|].
  change (String.prefix (String c a) (String c (a +:+ b)) = true). simpl.
  by destruct (Ascii.ascii_dec c c).
Qed.

Lemma occursIn_prefix id e : String.prefix id e = true → occursIn id e = true.
Proof. intros Hp. destruct e; cbn [occursIn]; by rewrite Hp. Qed.

Lemma names_occursIn e id : names e id → occursIn id e = true.
Proof.
  intros (before & after & ->). induction before as [|c before IH].
  - change ("" +:+ id +:+ after) with (id +:+ after).
    apply occursIn_prefix, prefix_append.
  - change (String c before +:+ id +:+ after) with (String c (before +:+ id +:+ after)).
    cbn [occursIn]. rewrite IH. apply orb_true_r.
Qed.

(** The first scenario of the spec: one root logical node [N1] with a
    physical-capable spec is replaced by the root [phys_N1]; the concurrency
    quota becomes 1 and the memory quota the default limit. *)
Example plan_N1 :
  ∃ s', planWith [] 0 store_N1 = Ret ((Some 0, None), s')
        ∧ plans s' !! 0 = Some (mkPlanSpec {[1]} (mkResources 1 MaxInt64))
        ∧ ID <$> nodes s' !! 1 = Some "phys_N1"
        ∧ isPhysical <$> nodes s' !! 1 = Some true.
Proof. eexists. split; [vm_compute; reflexivity|]. by vm_compute. Qed.

(** The second scenario of the spec: a logical node that no rule converts
    fails the plan with the error naming it, and stays logical when
    validation is disabled. *)
Example plan_L :
  planWith [] 0 store_L = Ret ((None, Some (notConverted "L")), store_L)
  ∧ ∃ s', planWith [DisableValidation] 0 store_L = Ret ((Some 0, None), s')
          ∧ isLogical <$> nodes s' !! 0 = Some true.
Proof. split; [by vm_compute|]. eexists. split; [vm_compute; reflexivity|]. by vm_compute. Qed.

Example format_chain :
  runFormat (Formatted 0 []) "" store_chain
  = Ret (LF +:+ "digraph plan {" +:+ LF
         +:+ "  S0" +:+ LF +:+ "  S1" +:+ LF +:+ "  S2" +:+ LF
         +:+ LF
         +:+ "  S0 -> S1" +:+ LF +:+ "  S1 -> S2" +:+ LF
         +:+ "}" +:+ LF, store_chain).
Proof. by vm_compute. Qed.

(** On the chain, planning converts [S0] and [S1]; [S2] stays logical and
    passes through its hook. *)
Lemma Plan_postcondition_witness :
  ∃ s', planWith [] 0 store_chain = Ret ((Some 0, None), s')
        ∧ ∃ ps, plans s' !! 0 = Some ps
                ∧ ∀ x n, reachable (nodes s') (Roots ps) x → nodes s' !! x = Some n →
                    isPhysical n = true
                    ∨ ∃ validator, asPostPhysicalValidator (procedureSpec n) = Some validator
                                   ∧ validator (ID n) = None.
Proof.
  eexists. split; [vm_compute; reflexivity|].
  apply (Plan_postcondition (heuristicPlanner_Plan 10) ComputeBounds_default
           CheckIntegrity_model (NewPhysicalPlanner [] []) 0 store_chain 0);
    [reflexivity|vm_compute; reflexivity].
Defined.

Lemma Rewrite_converts_witness :
  ∃ s', physicalConverterRule.Rewrite 1 store_chain = Ret ((4, true, None), s')
        ∧ ID <$> nodes s' !! 4 = Some "phys_S1"
        ∧ Bounds <$> nodes s' !! 4 = Some (Some (1, 2)%Z)
        ∧ Predecessors <$> nodes s' !! 4 = Some [0]
        ∧ Successors <$> nodes s' !! 0 = Some [4]
        ∧ Predecessors <$> nodes s' !! 2 = Some [4].
Proof.
  destruct (Rewrite_converts 1 store_chain
              (mkLogicalPlanNode (mkEdges [0] [2]) (Some (1, 2)%Z) "S1" capable)
              (mkPhysicalProcedureSpec capable (λ _, (1%Z, 1%Z))) eq_refl eq_refl)
    as (s' & Hrun & _ & _ & Hnew & _ & Hothers).
  exists s'. split; [exact Hrun|].
  change (length (nodes store_chain)) with 4 in *.
  rewrite Hnew.
  destruct (Hothers 0 _ ltac:(lia) eq_refl) as (n0 & -> & _ & _ & _ & _ & _ & Hs0 & _).
  destruct (Hothers 2 _ ltac:(lia) eq_refl) as (n2 & -> & _ & _ & _ & _ & _ & _ & Hp2).
  simpl. rewrite Hs0, Hp2. repeat split.
Defined.

Lemma Plan_quota_defaulting_witness :
  defaultMemoryLimit (WithDefaultMemoryLimit 1024 (NewPhysicalPlanner [] [])) = 1024%Z
  ∧ ∃ s' output,
      planWith [] 0 store_N1 = Ret ((Some 0, None), s')
      ∧ plans s' !! 0 = Some output
      ∧ Roots output = {[1]}
      ∧ MemoryBytesQuota (Resources output) = MaxInt64
      ∧ ConcurrencyQuota (Resources output) = Z.of_nat (size (Roots output)).
Proof.
  eassert _ as Hplan.
  { eapply (Plan_quota_defaulting (heuristicPlanner_Plan 10) ComputeBounds_default
              CheckIntegrity_model (NewPhysicalPlanner [] []) 0 store_N1
              (mkPlanSpec {[0]} resources0) 0 _ _ _ (mkPlanSpec {[1]} resources0) 1024%Z);
      [reflexivity|vm_compute; reflexivity|vm_compute; reflexivity
      |vm_compute; reflexivity|vm_compute; reflexivity|reflexivity]. }
  exact Hplan.
Defined.

(** C4 as stated fails: in the graph of [A] feeding [B], the root [B] is
    reachable, still logical and has no hook, yet [Plan] returns the error of
    the hook of [A], which is visited first; that error does not name [B]. *)
Lemma Plan_error_not_naming_node :
  ∃ e s', planWith [] 0 store_AB = Ret ((None, Some e), s')
          ∧ ∃ ps ln, plans s' !! 0 = Some ps
                     ∧ reachable (nodes s') (Roots ps) 1
                     ∧ nodes s' !! 1 = Some (Logical ln)
                     ∧ asPostPhysicalValidator (l_Spec ln) = None
                     ∧ ¬ names e (l_id ln).
Proof.
  exists "invalid", store_AB. split; [by vm_compute|].
  eexists _, _. split; [reflexivity|]. split.
  { apply reachable_root. by vm_compute. }
  split; [reflexivity|]. split; [reflexivity|].
  intros Hnames%names_occursIn. by vm_compute in Hnames.
Qed.

(** On [P] feeding [B] the node [P] is visited first and passes, so the error
    names [B]; on [A] feeding [B] the first node that fails is [A], so the
    error is the one of the hook of [A]. *)
Lemma Plan_incomplete_conversion_witness :
  (planWith [] 0 store_PB = Ret ((None, Some (notConverted "B")), store_PB)
   ∧ names (notConverted "B") "B")
  ∧ planWith [] 0 store_AB = Ret ((None, Some "invalid"), store_AB).
Proof.
  split.
  - destruct (Plan_incomplete_conversion (heuristicPlanner_Plan 10) ComputeBounds_default
                CheckIntegrity_model (NewPhysicalPlanner [] []) 0 store_PB 0 store_PB
                store_PB store_PB (mkPlanSpec {[1]} resources0) 1
                (Logical (mkLogicalPlanNode (mkEdges [0] []) None "B" logicalOnly)))
      as (e & Hrun & _ & Hnames);
      [reflexivity|by vm_compute|by vm_compute|by vm_compute|reflexivity
      |apply reachable_root; by vm_compute|reflexivity|reflexivity|reflexivity|].
    destruct (Hnames [0] []) as [-> Hn]; [by vm_compute| |by split].
    intros y m Hy%list_elem_of_singleton Hm. subst y. by injection Hm as <-.
  - destruct (Plan_incomplete_conversion (heuristicPlanner_Plan 10) ComputeBounds_default
                CheckIntegrity_model (NewPhysicalPlanner [] []) 0 store_AB 0 store_AB
                store_AB store_AB (mkPlanSpec {[1]} resources0) 1
                (Logical (mkLogicalPlanNode (mkEdges [0] []) None "B" logicalOnly)))
      as (e & Hrun & (earlier & y & later & m & Horder & _ & Hm & He & Hpass) & _);
      [reflexivity|by vm_compute|by vm_compute|by vm_compute|reflexivity
      |apply reachable_root; by vm_compute|reflexivity|reflexivity|reflexivity|].
    assert (e = "invalid") as ->; [|exact Hrun].
    change (bottomUpOrder (nodes store_AB) (Roots (mkPlanSpec {[1]} resources0)))
      with [0; 1] in Horder.
    destruct earlier as [|z earlier].
    + injection Horder as <- _. injection Hm as <-. by injection He as <-.
    + injection Horder as <- _.
      by specialize (Hpass 0 _ ltac:(by left) eq_refl).
Defined.

Lemma Rewrite_noop_witness :
  physicalConverterRule.Rewrite 0 store_AB = Ret ((0, false, None), store_AB)
  ∧ physicalConverterRule.Rewrite 1 store_AB = Ret ((1, false, None), store_AB).
Proof.
  split.
  - by apply (proj1 (Rewrite_noop 0 store_AB _ eq_refl)).
  - by eapply (proj1 (proj2 (Rewrite_noop 1 store_AB _ eq_refl))).
Defined.

Lemma Plan_plan_or_error_witness :
  planWith [] 0 store_AB = Ret ((None, Some "invalid"), store_AB).
Proof.
  eassert _ as Hplan.
  { eapply (proj2 (proj2 (proj2 (proj2
              (Plan_plan_or_error (heuristicPlanner_Plan 10) ComputeBounds_default
                 CheckIntegrity_model (NewPhysicalPlanner [] []) 0 store_AB))))
              0 store_AB store_AB store_AB "invalid" store_AB);
      [reflexivity|by vm_compute|by vm_compute|by vm_compute|by vm_compute]. }
  exact Hplan.
Defined.

Lemma Plan_without_validation_witness :
  disableValidation
    (NewPhysicalPlanner [] ([OnlyPhysicalRules []] ++ DisableValidation
                              :: [WithDefaultMemoryLimit 64])) = true
  ∧ ∃ s', planWith [DisableValidation] 0 store_L = Ret ((Some 0, None), s')
          ∧ s' = finished (NewPhysicalPlanner [] [DisableValidation]) 0
                   (mkPlanSpec {[0]} resources0) store_L
          ∧ ∀ x ln, nodes store_L !! x = Some (Logical ln) → nodes s' !! x = Some (Logical ln).
Proof.
  eassert (_ ∧ _) as [Hflag Hplan].
  { eapply (Plan_without_validation (heuristicPlanner_Plan 10) ComputeBounds_default
              CheckIntegrity_model [] [OnlyPhysicalRules []] [WithDefaultMemoryLimit 64]
              (NewPhysicalPlanner [] [DisableValidation]) 0 store_L 0 store_L store_L
              (mkPlanSpec {[0]} resources0));
      [reflexivity|by vm_compute|by vm_compute|reflexivity]. }
  split; [|exact Hplan].
  apply Hflag. constructor; [apply (options_keepDisabled 64 [])|constructor].
Defined.


Lemma validation_by_hook_alone_witness :
  validateNode (Logical (mkLogicalPlanNode (mkEdges [1] []) None "S2" passingHook)) = None
  ∧ ∃ e, planWith [] 0 store_AB = Ret ((None, Some e), store_AB).
Proof.
  split.
  - destruct (validation_by_hook_alone (heuristicPlanner_Plan 10) ComputeBounds_default
                CheckIntegrity_model (NewPhysicalPlanner [] []) 0 store_chain 0
                store_chain store_chain store_chain (mkPlanSpec {[2]} (mkResources 4 0)) 2
                (Logical (mkLogicalPlanNode (mkEdges [1] []) None "S2" passingHook))
                (λ _, None) eq_refl) as (_ & _ & Hpass).
    apply Hpass; reflexivity.
  - destruct (validation_by_hook_alone (heuristicPlanner_Plan 10) ComputeBounds_default
                CheckIntegrity_model (NewPhysicalPlanner [] []) 0 store_AB 0
                store_AB store_AB store_AB (mkPlanSpec {[1]} resources0) 0
                (Physical (mkPhysicalPlanNode (mkEdges [] [1]) None "A"
                             (mkPhysicalProcedureSpec failingHook (λ _, (1%Z, 1%Z)))
                             [] mkPhysicalAttributes))
                (λ _, Some "invalid") eq_refl) as (_ & Hfail & _).
    apply Hfail; [reflexivity|by vm_compute|by vm_compute|by vm_compute|reflexivity
                 | |reflexivity|by eexists].
    eapply (reachable_pred _ _ 1); [apply reachable_root; by vm_compute|reflexivity|by left].
Defined.

Lemma Rewrite_panics_iff_witness :
  physicalConverterRule.Rewrite 3 store_chain = Panic.
Proof.
  apply (proj1 (Rewrite_panics_iff 3 store_chain)).
  intros (n & Hn & Hkind). injection Hn as <-. discriminate.
Defined.

(** * Further properties of the code *)

(** ** The methods of physical nodes *)

Lemma length_append (a b : string) :
  String.length (a +:+ b) = String.length a + String.length b.
Proof.
  induction a as [|ch a IH]; [done|].
  change (S (String.length (a +:+ b)) = S (String.length a + String.length b)).
  by rewrite IH.
Qed.

Lemma append_nonempty_ne (a b : string) : b ≠ "" → a +:+ b ≠ a.
Proof.
  intros Hb Heq. apply (f_equal String.length) in Heq. rewrite length_append in Heq.
  destruct b; [done|]. simpl in Heq. lia.
Qed.

Lemma couldNotReplace_names id : names (couldNotReplace id) id.
Proof.
  exists ("couldn't replace ProcedureSpec for physical plan node " +:+ dquote), dquote.
  unfold couldNotReplace. by rewrite !append_assoc.
Qed.

Lemma asPhysicalProcedureSpec_dynSpec spec physSpec :
  asPhysicalProcedureSpec spec = Some physSpec → dynSpec physSpec = spec ∧ sameValue physSpec.
Proof.
  unfold asPhysicalProcedureSpec, sameValue.
  destruct (CostMethod spec) as [c|] eqn:Hc; [|discriminate].
  by intros [= <-].
Qed.

Lemma asPhysicalProcedureSpec_sameValue physSpec :
  sameValue physSpec → asPhysicalProcedureSpec (dynSpec physSpec) = Some physSpec.
Proof.
  unfold asPhysicalProcedureSpec, sameValue. intros ->. by destruct physSpec.
Qed.

(** X1: [ReplaceSpec] fails exactly when the new spec is not
    physical-capable; it then leaves the node as it was and its error names
    the node.  When it succeeds the node has the new spec, with its kind and
    cost, and keeps its identifier, edges, bounds and attributes.  Whether
    an earlier call failed or not, the node after a successful call is the
    same. *)
Theorem ReplaceSpec_behaviour newSpec ppn :
  ((ReplaceSpec newSpec ppn).2 = None ↔ is_Some (CostMethod newSpec))
  ∧ (CostMethod newSpec = None →
     ReplaceSpec newSpec ppn = (ppn, Some (couldNotReplace (p_id ppn)))
     ∧ names (couldNotReplace (p_id ppn)) (p_id ppn))
  ∧ (∀ cost, CostMethod newSpec = Some cost →
       let ppn' := (ReplaceSpec newSpec ppn).1 in
       procedureSpec (Physical ppn') = newSpec
       ∧ PhysicalPlanNode_Kind ppn' = Kind newSpec
       ∧ PhysicalPlanNode_Cost ppn' = cost
       ∧ p_id ppn' = p_id ppn ∧ p_edges ppn' = p_edges ppn ∧ p_bounds ppn' = p_bounds ppn
       ∧ RequiredAttrs ppn' = RequiredAttrs ppn ∧ OutputAttrs ppn' = OutputAttrs ppn
       ∧ ∀ earlier, (ReplaceSpec newSpec (ReplaceSpec earlier ppn).1).1 = ppn').
Proof.
  unfold ReplaceSpec, asPhysicalProcedureSpec. split; [|split].
  - destruct (CostMethod newSpec) as [c|]; simpl.
    + split; [by eexists|done].
    + split; [done|by intros [? ?]].
  - intros ->. split; [done|]. apply couldNotReplace_names.
  - intros cost ->. simpl. repeat split.
    intros earlier. by destruct (CostMethod earlier).
Qed.

(** X2: replacing the spec of a physical node by the spec it has succeeds and
    changes nothing. *)
Theorem ReplaceSpec_own_spec ppn :
  sameValue (p_Spec ppn) →
  ReplaceSpec (procedureSpec (Physical ppn)) ppn = (ppn, None).
Proof.
  intros Hsame. unfold ReplaceSpec. simpl.
  rewrite (asPhysicalProcedureSpec_sameValue _ Hsame). by destruct ppn.
Qed.

(** X3: [ShallowCopy] panics exactly when the copy of the spec is not
    physical-capable.  Otherwise the new node has the copied edges and the
    copied spec, and the identifier of the original followed by [_copy],
    which differs from the original's; its bounds are not set and it
    requires no attributes, whatever the original had. *)
Theorem ShallowCopy_behaviour shallowCopy Copy ppn :
  (ShallowCopy shallowCopy Copy ppn = Panic
   ↔ CostMethod (Copy (dynSpec (p_Spec ppn))) = None)
  ∧ (∀ copy, ShallowCopy shallowCopy Copy ppn = Ret copy →
       p_id copy = p_id ppn +:+ "_copy"
       ∧ p_id copy ≠ p_id ppn
       ∧ p_edges copy = shallowCopy (p_edges ppn)
       ∧ procedureSpec (Physical copy) = Copy (procedureSpec (Physical ppn))
       ∧ p_bounds copy = None
       ∧ RequiredAttrs copy = []).
Proof.
  unfold ShallowCopy, asPhysicalProcedureSpec. split.
  - destruct (CostMethod (Copy (dynSpec (p_Spec ppn)))); split; done.
  - intros copy. destruct (CostMethod (Copy (dynSpec (p_Spec ppn)))); [|done].
    intros [= <-]. simpl. repeat split. by apply append_nonempty_ne.
Qed.

(** ** More on the conversion rule *)

Lemma foldl_alter_length (f : PlanNode → PlanNode) (l : list Ptr) (h : list PlanNode) :
  length (foldl (λ acc i, alter f i acc) h l) = length h.
Proof.
  revert h. induction l as [|i l IH]; intros h; simpl; [done|].
  by rewrite IH, length_alter.
Qed.

Lemma ReplaceNode_length old new h : length (ReplaceNode old new h) = length h.
Proof.
  unfold ReplaceNode. destruct (h !! old); [|done].
  by rewrite !length_alter, !foldl_alter_length.
Qed.

(** Replacing a node changes edges only. *)
Lemma ReplaceNode_keeps old new h o q n :
  h !! old = Some o →
  old ≠ new →
  h !! q = Some n →
  ∃ n', ReplaceNode old new h !! q = Some n'
        ∧ ID n' = ID n ∧ procedureSpec n' = procedureSpec n ∧ Bounds n' = Bounds n
        ∧ isPhysical n' = isPhysical n ∧ isLogical n' = isLogical n.
Proof.
  intros Ho Hne Hq. rewrite (ReplaceNode_lookup old new h o q Ho Hne), Hq.
  eexists. split; [reflexivity|].
  destruct n; repeat case_decide; simpl; repeat split.
Qed.

(** X4: whenever [Rewrite] returns, it has left every plan spec as it was,
    the roots included (a converted root is still listed under its old
    pointer: replacing it there is left to the caller); it has added at most
    one node to the arena; and every node that was there is still there,
    with its identifier, spec, bounds and variant: only edges change. *)
Theorem Rewrite_frame pn s r s' :
  physicalConverterRule.Rewrite pn s = Ret (r, s') →
  plans s' = plans s
  ∧ length (nodes s) ≤ length (nodes s') ≤ S (length (nodes s))
  ∧ ∀ q n, nodes s !! q = Some n →
      ∃ n', nodes s' !! q = Some n'
            ∧ ID n' = ID n ∧ procedureSpec n' = procedureSpec n ∧ Bounds n' = Bounds n
            ∧ isPhysical n' = isPhysical n ∧ isLogical n' = isLogical n.
Proof.
  unfold physicalConverterRule.Rewrite.
  destruct (nodes s !! pn) as [[ln|ppn|fn]|] eqn:Hn; try discriminate.
  - destruct (asPhysicalProcedureSpec (l_Spec ln)) as [pspec|].
    + intros [= <- <-]. simpl. split; [done|]. split.
      * rewrite ReplaceNode_length, length_app. simpl. lia.
      * intros q n Hq. pose proof (lookup_lt_Some _ _ _ Hn).
        eapply ReplaceNode_keeps; [by apply lookup_app_l_Some|lia|by apply lookup_app_l_Some].
    + intros [= <- <-]. split; [done|]. split; [lia|eauto 10].
  - intros [= <- <-]. split; [done|]. split; [lia|eauto 10].
Qed.

(** X5: the physical node that [Rewrite] makes out of a logical node answers
    its methods from the logical node's spec: same kind, the spec's cost
    function, the spec itself as procedure spec.  The validation judges it
    by the spec's hook, if any, applied to the new identifier, and passes it
    otherwise; and replacing its spec by the logical node's spec changes
    nothing. *)
Theorem converted_node_methods pn s ln cost :
  nodes s !! pn = Some (Logical ln) →
  CostMethod (l_Spec ln) = Some cost →
  ∃ s' ppn,
    physicalConverterRule.Rewrite pn s = Ret ((length (nodes s), true, None), s')
    ∧ nodes s' !! length (nodes s) = Some (Physical ppn)
    ∧ PhysicalPlanNode_Kind ppn = Kind (l_Spec ln)
    ∧ PhysicalPlanNode_Cost ppn = cost
    ∧ procedureSpec (Physical ppn) = l_Spec ln
    ∧ validateNode (Physical ppn)
      = match PostPhysicalValidate (l_Spec ln) with
        | Some validator => validator ("phys_" +:+ l_id ln)
        | None => None
        end
    ∧ ReplaceSpec (l_Spec ln) ppn = (ppn, None).
Proof.
  intros Hn Hcost.
  assert (asPhysicalProcedureSpec (l_Spec ln)
          = Some (mkPhysicalProcedureSpec (l_Spec ln) cost)) as Hp.
  { unfold asPhysicalProcedureSpec. by rewrite Hcost. }
  eexists _, _. split; [by apply Rewrite_converts_run|]. simpl.
  split; [by apply Rewrite_converts_new|].
  repeat split. unfold ReplaceSpec. by rewrite Hp.
Qed.

(** ** More on the validation walk *)

Lemma passes_validation_iff n : passes_validation n ↔ validateNode n = None.
Proof.
  unfold passes_validation, validateNode.
  destruct (asPostPhysicalValidator (procedureSpec n)); [done|].
  by destruct (isPhysical n).
Qed.

(** X6: on a plan that exists, [validatePhysicalPlan] returns and leaves the
    store as it was; it returns no error exactly when every node reachable
    from a root passes: its spec has the hook and the hook accepts the node's
    identifier, or its spec has no hook and the node is physical. *)
Theorem validatePhysicalPlan_nil_iff (plan : SpecPtr) s ps :
  plans s !! plan = Some ps →
  (∃ r, validatePhysicalPlan plan s = Ret (r, s))
  ∧ (validatePhysicalPlan plan s = Ret (None, s)
     ↔ ∀ x n, reachable (nodes s) (Roots ps) x → nodes s !! x = Some n →
         passes_validation n).
Proof.
  intros Hps. rewrite (validatePhysicalPlan_run _ _ _ Hps). split; [eauto|]. split.
  - intros [= Hfirst] x n Hx Hn. apply passes_validation_iff.
    eapply firstError_None; [exact Hfirst| |exact Hn].
    apply bottomUpOrder_complete; [done|by eexists].
  - intros Hall.
    destruct (firstError (nodes s) (bottomUpOrder (nodes s) (Roots ps))) as [e|] eqn:He;
      [|done].
    destruct (firstError_first _ _ _ He) as (l1 & x & l2 & n & Hl & Hn & Hen & _).
    assert (x ∈ bottomUpOrder (nodes s) (Roots ps)) as Hx.
    { rewrite Hl. apply elem_of_app. right. by left. }
    apply bottomUpOrder_sound in Hx as [_ Hx].
    apply (Hall x n Hx), passes_validation_iff in Hn. congruence.
Qed.

(** X7: an error of [validatePhysicalPlan] is the verdict on a node reachable
    from a root: the error its hook returned for its identifier, or, for a
    node without hook that is not physical, the error that names it.  The
    store is as it was. *)
Theorem validatePhysicalPlan_error (plan : SpecPtr) s e s' :
  validatePhysicalPlan plan s = Ret (Some e, s') →
  s' = s
  ∧ ∃ ps x n, plans s !! plan = Some ps
      ∧ reachable (nodes s) (Roots ps) x ∧ nodes s !! x = Some n
      ∧ ((∃ validator, PostPhysicalValidate (procedureSpec n) = Some validator
                       ∧ validator (ID n) = Some e)
         ∨ (PostPhysicalValidate (procedureSpec n) = None ∧ isPhysical n = false
            ∧ e = notConverted (ID n) ∧ names e (ID n))).
Proof.
  intros Hrun. destruct (BottomUpWalk_Ret _ _ _ _ _ Hrun) as [ps Hps].
  rewrite (validatePhysicalPlan_run _ _ _ Hps) in Hrun. injection Hrun as He <-.
  split; [done|].
  destruct (firstError_first _ _ _ He) as (l1 & x & l2 & n & Hl & Hn & Hen & _).
  exists ps, x, n. split; [done|]. split.
  { apply (bottomUpOrder_sound (nodes s) (Roots ps) x).
    rewrite Hl. apply elem_of_app. right. by left. }
  split; [done|]. unfold validateNode, asPostPhysicalValidator in Hen.
  destruct (PostPhysicalValidate (procedureSpec n)) as [validator|]; [left; eauto|].
  right. destruct (isPhysical n); [discriminate|]. injection Hen as <-.
  repeat split. apply notConverted_names.
Qed.

(** ** More on the planner *)

Lemma withDefaultQuotas_idemp limit ps :
  withDefaultQuotas limit (withDefaultQuotas limit ps) = withDefaultQuotas limit ps.
Proof.
  destruct ps as [roots [conc mem]].
  unfold withDefaultQuotas, setMemoryBytesQuota, setConcurrencyQuota. simpl.
  destruct (Z.eqb_spec mem 0) as [->|Hm]; simpl;
    destruct (Z.eqb_spec conc 0) as [->|Hc]; simpl;
    repeat (match goal with
            | |- context [(?a =? 0)%Z] => destruct (Z.eqb_spec a 0); simpl
            end);
    try reflexivity; simpl in *; congruence.
Qed.

(** X8: defaulting the quotas twice is defaulting them once. *)
Theorem updateQuotas_idempotent pp (transformedSpec : SpecPtr) s :
  bind (updateQuotas pp transformedSpec) (λ _, updateQuotas pp transformedSpec) s
  = updateQuotas pp transformedSpec s.
Proof.
  destruct (plans s !! transformedSpec) as [ps|] eqn:Hps.
  - pose proof (lookup_lt_Some _ _ _ Hps) as Hlt.
    rewrite (bind_run _ _ _ _ _ (updateQuotas_run pp _ _ _ Hps)).
    erewrite (updateQuotas_run pp transformedSpec (mkStore _ _)).
    2:{ simpl. by apply list_lookup_insert_eq. }
    rewrite (updateQuotas_run pp _ _ _ Hps). simpl.
    by rewrite list_insert_insert_eq, withDefaultQuotas_idemp.
  - assert (updateQuotas pp transformedSpec s = Panic) as Hpanic.
    { unfold updateQuotas, bind, getPlan, theStore, Store_HasStore. by rewrite Hps. }
    unfold bind at 1. by rewrite Hpanic.
Qed.

Section PlanExtras.

Variable heuristicPlan : heuristicPlanner → SpecPtr → M Store (option SpecPtr * option Error).
Variable ComputeBounds : Ptr → M Store (option Error).
Variable CheckIntegrity : SpecPtr → M Store (option Error).

Local Abbreviation Plan' := (Plan heuristicPlan ComputeBounds CheckIntegrity).
Local Abbreviation ensureValid' := (ensureValid CheckIntegrity).

(** X9: an error of [Plan] is the error of one of its steps, and the store
    is the one that step left: the heuristic planner, the bounds walk, or,
    only if validation is enabled, the integrity check or the validation
    walk. *)
Theorem Plan_error_provenance pp spec s e s' :
  Plan' pp spec s = Ret ((None, Some e), s') →
  (∃ ts, heuristicPlan (heuristic pp) spec s = Ret ((ts, Some e), s'))
  ∨ ∃ transformedSpec s1,
      heuristicPlan (heuristic pp) spec s = Ret ((Some transformedSpec, None), s1)
      ∧ (BottomUpWalk transformedSpec ComputeBounds s1 = Ret (Some e, s')
         ∨ ∃ s2, BottomUpWalk transformedSpec ComputeBounds s1 = Ret (None, s2)
                 ∧ disableValidation pp = false
                 ∧ (CheckIntegrity transformedSpec s2 = Ret (Some e, s')
                    ∨ ∃ s3, CheckIntegrity transformedSpec s2 = Ret (None, s3)
                            ∧ validatePhysicalPlan transformedSpec s3 = Ret (Some e, s'))).
Proof.
  intros Hrun. apply Plan_Ret in Hrun.
  inversion Hrun as [ts e' s1 H1|t s1 e' s2 H1 H2|t s1 s2 e' s3 H1 H2 H3|]; subst.
  - left. eauto.
  - right. exists t, s1. eauto.
  - right. exists t, s1. split; [done|]. right. exists s2. split; [done|].
    unfold ensureValid in H3. destruct (disableValidation pp); [discriminate|].
    split; [done|]. simpl in H3.
    apply bind_Ret in H3 as (cerr & s3 & Hc & Hk).
    destruct cerr as [ce|].
    + injection Hk as <- <-. by left.
    + right. eauto.
Qed.

(** X10: with validation enabled, once rewriting, the bounds walk and the
    integrity check returned no error, [Plan] returns the plan exactly when
    every node reachable from a root passes the validation. *)
Theorem Plan_succeeds_iff pp spec s transformedSpec s1 s2 s3 ps :
  disableValidation pp = false →
  heuristicPlan (heuristic pp) spec s = Ret ((Some transformedSpec, None), s1) →
  BottomUpWalk transformedSpec ComputeBounds s1 = Ret (None, s2) →
  CheckIntegrity transformedSpec s2 = Ret (None, s3) →
  plans s3 !! transformedSpec = Some ps →
  (∃ s', Plan' pp spec s = Ret ((Some transformedSpec, None), s'))
  ↔ ∀ x n, reachable (nodes s3) (Roots ps) x → nodes s3 !! x = Some n →
      passes_validation n.
Proof.
  intros Hv H1 H2 H3 Hps.
  pose proof (ensureValid_enabled _ _ _ _ _ _ Hv H3 Hps) as Hvalid.
  destruct (firstError (nodes s3) (bottomUpOrder (nodes s3) (Roots ps))) as [e|] eqn:He.
  - split.
    + intros [s' Hrun].
      rewrite (Plan_validation_error _ _ _ _ _ _ _ _ _ _ _ H1 H2 Hvalid) in Hrun.
      discriminate.
    + intros Hall.
      destruct (firstError_first _ _ _ He) as (l1 & x & l2 & n & Hl & Hn & Hen & _).
      assert (x ∈ bottomUpOrder (nodes s3) (Roots ps)) as Hx.
      { rewrite Hl. apply elem_of_app. right. by left. }
      apply bottomUpOrder_sound in Hx as [_ Hx].
      apply (Hall x n Hx), passes_validation_iff in Hn. congruence.
  - split.
    + intros _ x n Hx Hn. apply passes_validation_iff.
      eapply firstError_None; [exact He| |exact Hn].
      apply bottomUpOrder_complete; [done|by eexists].
    + intros _. eexists. by eapply Plan_success.
Qed.

(** X11: in the plan that [Plan] returns, the memory quota is zero only if
    the planner's default limit is zero, and the concurrency quota is zero
    only if the plan has no root. *)
Theorem Plan_quotas_nonzero pp spec s transformedSpec s' :
  Plan heuristicPlan ComputeBounds CheckIntegrity pp spec s
  = Ret ((Some transformedSpec, None), s') →
  ∃ output, plans s' !! transformedSpec = Some output
    ∧ (MemoryBytesQuota (Resources output) = 0%Z → defaultMemoryLimit pp = 0%Z)
    ∧ (ConcurrencyQuota (Resources output) = 0%Z → Roots output = ∅).
Proof.
  intros Hrun. apply Plan_Ret in Hrun.
  inversion Hrun as [| | |t s1 s2 s3 ps H1 H2 H3 Hps]; subst.
  exists (withDefaultQuotas (defaultMemoryLimit pp) ps). split.
  { unfold finished. simpl. apply list_lookup_insert_eq. by eapply lookup_lt_Some. }
  rewrite withDefaultQuotas_memory, withDefaultQuotas_concurrency, withDefaultQuotas_Roots.
  split.
  - destruct (Z.eqb_spec (MemoryBytesQuota (Resources ps)) 0); [done|]. by intros ?.
  - destruct (Z.eqb_spec (ConcurrencyQuota (Resources ps)) 0); [|by intros ?].
    intros Hsize. apply leibniz_equiv, size_empty_inv. lia.
Qed.

(** X12: what [Plan] itself writes when it returns a plan is the two quotas
    of that plan: the nodes, the roots of the plan and every other plan spec
    are as the validation step left them. *)
Theorem Plan_writes_only_quotas pp spec s transformedSpec s' :
  Plan' pp spec s = Ret ((Some transformedSpec, None), s') →
  ∃ s1 s2 s3 ps output,
    heuristicPlan (heuristic pp) spec s = Ret ((Some transformedSpec, None), s1)
    ∧ BottomUpWalk transformedSpec ComputeBounds s1 = Ret (None, s2)
    ∧ ensureValid' pp transformedSpec s2 = Ret (None, s3)
    ∧ plans s3 !! transformedSpec = Some ps
    ∧ plans s' !! transformedSpec = Some output
    ∧ Roots output = Roots ps
    ∧ nodes s' = nodes s3
    ∧ length (plans s') = length (plans s3)
    ∧ ∀ i, i ≠ transformedSpec → plans s' !! i = plans s3 !! i.
Proof.
  intros Hrun. apply Plan_Ret in Hrun.
  inversion Hrun as [| | |t s1 s2 s3 ps H1 H2 H3 Hps]; subst.
  exists s1, s2, s3, ps, (withDefaultQuotas (defaultMemoryLimit pp) ps).
  unfold finished. simpl. repeat split; try done.
  - apply list_lookup_insert_eq. by eapply lookup_lt_Some.
  - apply withDefaultQuotas_Roots.
  - apply length_insert.
  - intros i Hi. by apply list_lookup_insert_ne.
Qed.

End PlanExtras.

(** ** What the options make of the planner *)

Lemma options_fold calls : ∀ pp0,
  disableValidation (foldl (λ pp opt, opt pp) pp0 (optionOf <$> calls))
  = disableValidation pp0 || existsb disablesValidation calls
  ∧ (forallb (λ c, negb (setsMemoryLimit c)) calls = true →
     defaultMemoryLimit (foldl (λ pp opt, opt pp) pp0 (optionOf <$> calls))
     = defaultMemoryLimit pp0)
  ∧ (forallb (λ c, negb (setsRules c)) calls = true →
     heuristic (foldl (λ pp opt, opt pp) pp0 (optionOf <$> calls)) = heuristic pp0).
Proof.
  induction calls as [|c calls IH]; intros pp0.
  - simpl. by rewrite orb_false_r.
  - rewrite fmap_cons. cbn [foldl existsb forallb].
    destruct (IH (optionOf c pp0)) as (Hv & Hm & Hr).
    split; [|split].
    + rewrite Hv. destruct c; simpl; [done|done|]. by rewrite orb_true_r.
    + intros [Hc Hrest]%andb_true_iff. rewrite (Hm Hrest). by destruct c.
    + intros [Hc Hrest]%andb_true_iff. rewrite (Hr Hrest). by destruct c.
Qed.

Lemma NewPhysicalPlanner_fold registry options :
  NewPhysicalPlanner registry options
  = foldl (λ pp opt, opt pp)
      (mkPhysicalPlanner (addRules [converterRule] (addRules registry newHeuristicPlanner))
         MaxInt64 false)
      options.
Proof. reflexivity. Qed.

(** X13: the planner that [NewPhysicalPlanner] makes from options of the
    package.  Validation is disabled exactly when [DisableValidation] is
    among them.  The default memory limit is that of the last
    [WithDefaultMemoryLimit], and the largest 64-bit integer without one.
    The rule set is the one the last [OnlyPhysicalRules] adds to an empty
    set, whatever was registered; without one, it is the registered rules
    with the conversion rule added. *)
Theorem NewPhysicalPlanner_options registry calls :
  (disableValidation (NewPhysicalPlanner registry (optionOf <$> calls))
   = existsb disablesValidation calls)
  ∧ (∀ before memBytes after,
       calls = before ++ CallWithDefaultMemoryLimit memBytes :: after →
       forallb (λ c, negb (setsMemoryLimit c)) after = true →
       defaultMemoryLimit (NewPhysicalPlanner registry (optionOf <$> calls)) = memBytes)
  ∧ (forallb (λ c, negb (setsMemoryLimit c)) calls = true →
     defaultMemoryLimit (NewPhysicalPlanner registry (optionOf <$> calls)) = MaxInt64)
  ∧ (∀ before rs after,
       calls = before ++ CallOnlyPhysicalRules rs :: after →
       forallb (λ c, negb (setsRules c)) after = true →
       heuristic (NewPhysicalPlanner registry (optionOf <$> calls))
       = addRules rs newHeuristicPlanner)
  ∧ (forallb (λ c, negb (setsRules c)) calls = true →
     heuristic (NewPhysicalPlanner registry (optionOf <$> calls))
     = addRules [converterRule] (addRules registry newHeuristicPlanner)).
Proof.
  rewrite NewPhysicalPlanner_fold. split; [|split; [|split; [|split]]].
  - by destruct (options_fold calls
                   (mkPhysicalPlanner (addRules [converterRule] (addRules registry newHeuristicPlanner))
                      MaxInt64 false)) as (-> & _ & _).
  - intros before memBytes after -> Hafter.
    rewrite fmap_app, fmap_cons, foldl_app. cbn [foldl].
    match goal with |- context [foldl _ ?pp0 (optionOf <$> after)] =>
      destruct (options_fold after pp0) as (_ & Hm & _) end.
    by rewrite (Hm Hafter).
  - intros Hall.
    match goal with |- context [foldl _ ?pp0 (optionOf <$> calls)] =>
      destruct (options_fold calls pp0) as (_ & Hm & _) end.
    by rewrite (Hm Hall).
  - intros before rs after -> Hafter.
    rewrite fmap_app, fmap_cons, foldl_app. cbn [foldl].
    match goal with |- context [foldl _ ?pp0 (optionOf <$> after)] =>
      destruct (options_fold after pp0) as (_ & _ & Hr) end.
    by rewrite (Hr Hafter).
  - intros Hall.
    match goal with |- context [foldl _ ?pp0 (optionOf <$> calls)] =>
      destruct (options_fold calls pp0) as (_ & _ & Hr) end.
    by rewrite (Hr Hall).
Qed.

(** ** More on the formatter *)

Lemma formatNode_returns x n st :
  nodes (fm_store st) !! x = Some n →
  (∀ q, q ∈ Predecessors n → is_Some (nodes (fm_store st) !! q)) →
  formatNode x st
  = Ret (None, mkFormatState (fm_store st)
                 (fm_out st +:+ joinLines (nodeStatements (nodes (fm_store st)) [x]))
                 (fm_edges st ++ edgeLines (nodes (fm_store st)) [x])).
Proof.
  intros Hn Hpreds. unfold formatNode.
  erewrite bind_run; [|by apply (getNode_run x st n)].
  erewrite bind_run; [|reflexivity].
  erewrite bind_run; [|by apply forEach_appendEdge].
  unfold ret. simpl. unfold idOf at 2. rewrite Hn, app_nil_r.
  by rewrite append_empty_r, !append_assoc.
Qed.

Lemma visitAll_formatNode_returns l : ∀ st,
  (∀ x, x ∈ l → ∃ n, nodes (fm_store st) !! x = Some n
                     ∧ ∀ q, q ∈ Predecessors n → is_Some (nodes (fm_store st) !! q)) →
  visitAll formatNode l st
  = Ret (None, mkFormatState (fm_store st)
                 (fm_out st +:+ joinLines (nodeStatements (nodes (fm_store st)) l))
                 (fm_edges st ++ edgeLines (nodes (fm_store st)) l)).
Proof.
  induction l as [|x l IH]; intros st Hv.
  - simpl. unfold ret. rewrite append_empty_r, app_nil_r. by destruct st.
  - destruct (Hv x) as (n & Hn & Hpreds); [by left|].
    cbn [visitAll]. rewrite (bind_run _ _ _ _ _ (formatNode_returns x n st Hn Hpreds)).
    rewrite IH; [|intros; apply Hv; by right]. simpl fm_store. simpl fm_out.
    simpl fm_edges.
    change (x :: l) with ([x] ++ l).
    unfold nodeStatements, edgeLines. rewrite fmap_app, bind_app, joinLines_app.
    by rewrite append_assoc, <- app_assoc.
Qed.

(** The run of [Format] on a plan that exists, when the predecessors of the
    visited nodes exist. *)
Lemma runFormat_returns (f : formatter) (out : string) (s : Store) (ps : PlanSpec) :
  plans s !! p f = Some ps →
  (∀ x n q, x ∈ bottomUpOrder (nodes s) (Roots ps) → nodes s !! x = Some n →
     q ∈ Predecessors n → is_Some (nodes s !! q)) →
  runFormat f out s
  = Ret (out +:+ rendering (t f) (nodes s) (bottomUpOrder (nodes s) (Roots ps)), s).
Proof.
  intros Hps Hpreds. unfold runFormat, Format.
  erewrite bind_run; [|reflexivity].
  erewrite bind_run.
  2:{ unfold BottomUpWalk. erewrite bind_run; [|by apply getPlan_run].
      apply visitAll_formatNode_returns. simpl. intros x Hx.
      destruct (bottomUpOrder_sound _ _ _ Hx) as [[n Hn] _]. eauto. }
  erewrite bind_run; [|reflexivity].
  erewrite bind_run; [|reflexivity].
  erewrite bind_run; [|apply forEach_Fprintf].
  unfold Fprintf, rendering. simpl. by rewrite !append_assoc.
Qed.

Lemma bottomUpOrder_no_roots h : bottomUpOrder h ∅ = [].
Proof. unfold bottomUpOrder. by rewrite elements_empty. Qed.

(** X14: for a plan without roots, [Format] writes the opening line with the
    title, an empty line and the closing brace, and nothing else, whatever
    nodes the arena holds. *)
Theorem Format_empty_plan (f : formatter) (out : string) (s : Store) (ps : PlanSpec) :
  plans s !! p f = Some ps →
  Roots ps = ∅ →
  runFormat f out s
  = Ret (out +:+ LF +:+ "digraph " +:+ t f +:+ " {" +:+ LF +:+ LF +:+ "}" +:+ LF, s).
Proof.
  intros Hps Hroots.
  rewrite (runFormat_returns f out s ps Hps); rewrite Hroots, bottomUpOrder_no_roots.
  - reflexivity.
  - intros x n q []%elem_of_nil.
Qed.

Lemma joinLines_occurs line l :
  line ∈ l → ∃ before after, joinLines l = before +:+ (line +:+ LF) +:+ after.
Proof.
  induction l as [|x l IH]; [by intros ?%elem_of_nil|].
  change (joinLines (x :: l)) with (x +:+ LF +:+ joinLines l).
  intros [->|Hin]%elem_of_cons.
  - exists "", (joinLines l). by rewrite append_assoc.
  - destruct (IH Hin) as (before & after & ->).
    exists (x +:+ LF +:+ before), after. by rewrite !append_assoc.
Qed.

Lemma rendering_names_statement title h order line :
  line ∈ nodeStatements h order → names (rendering title h order) (line +:+ LF).
Proof.
  intros (before & after & Hj)%joinLines_occurs. unfold rendering. rewrite Hj.
  eexists (LF +:+ "digraph " +:+ title +:+ " {" +:+ LF +:+ before), _.
  rewrite !append_assoc. reflexivity.
Qed.

Lemma rendering_names_edge title h order line :
  line ∈ edgeLines h order → names (rendering title h order) (line +:+ LF).
Proof.
  intros (before & after & Hj)%joinLines_occurs. unfold rendering. rewrite Hj.
  eexists (LF +:+ "digraph " +:+ title +:+ " {" +:+ LF
           +:+ joinLines (nodeStatements h order) +:+ LF +:+ before), _.
  rewrite !append_assoc. reflexivity.
Qed.

(** X15: what [Format] writes shows the whole graph: for every node
    reachable from a root there is the line of its identifier, and for each
    of its predecessors the line of the edge from the predecessor's
    identifier to its own. *)
Theorem Format_shows_reachable (f : formatter) (out : string) (s : Store) (ps : PlanSpec) :
  plans s !! p f = Some ps →
  closedb (nodes s) = true →
  ∃ text, runFormat f out s = Ret (out +:+ text, s)
    ∧ ∀ x n, reachable (nodes s) (Roots ps) x → nodes s !! x = Some n →
        names text (("  " +:+ ID n) +:+ LF)
        ∧ ∀ q m, q ∈ Predecessors n → nodes s !! q = Some m →
            names text (("  " +:+ ID m +:+ " -> " +:+ ID n) +:+ LF).
Proof.
  intros Hps Hc. eexists. split.
  { apply (runFormat_returns f out s ps Hps). intros x n q _ Hn Hq.
    by eapply closedb_lookup. }
  intros x n Hx Hn.
  assert (x ∈ bottomUpOrder (nodes s) (Roots ps)) as Hin.
  { apply bottomUpOrder_complete; [done|by eexists]. }
  split.
  - apply rendering_names_statement. unfold nodeStatements.
    apply list_elem_of_fmap. exists x. split; [|done]. unfold idOf. by rewrite Hn.
  - intros q m Hq Hm. apply rendering_names_edge. unfold edgeLines.
    apply list_elem_of_bind. exists x. split; [|done]. rewrite Hn.
    apply list_elem_of_fmap. exists q. split; [|done]. unfold idOf. by rewrite Hm.
Qed.

Lemma FormatTitle_fold (titles : list string) : ∀ f0,
  foldl (λ f o, o f) f0 (FormatTitle <$> titles)
  = mkFormatter (default (t f0) (last titles)) (p f0).
Proof.
  induction titles as [|title titles IH]; intros f0; [by destruct f0|].
  rewrite fmap_cons. cbn [foldl]. rewrite IH. unfold FormatTitle. simpl.
  f_equal. destruct titles as [|title' titles']; [done|].
  change (last (title :: title' :: titles')) with (last (title' :: titles')).
  destruct (last (title' :: titles')) eqn:Hlast; [done|].
  by apply last_None in Hlast.
Qed.

(** X16: [Formatted] applies its options in order: with [FormatTitle]
    options only, the title is the last one given, and [plan] when none is
    given; the plan to format stays the one handed in. *)
Theorem Formatted_titles (plan : SpecPtr) (titles : list string) :
  Formatted plan (FormatTitle <$> titles)
  = mkFormatter (default "plan" (last titles)) plan.
Proof. unfold Formatted. by rewrite FormatTitle_fold. Qed.

Lemma sameShape_predecessors h1 h2 x :
  sameShape h1 h2 → Predecessors <$> h1 !! x = Predecessors <$> h2 !! x.
Proof.
  intros Hs. specialize (Hs x).
  destruct (h1 !! x), (h2 !! x); simpl in *; congruence.
Qed.

Lemma sameShape_idOf h1 h2 x : sameShape h1 h2 → idOf h1 x = idOf h2 x.
Proof.
  intros Hs. specialize (Hs x). unfold idOf.
  destruct (h1 !! x), (h2 !! x); simpl in *; congruence.
Qed.

Lemma sameShape_length h1 h2 : sameShape h1 h2 → length h1 = length h2.
Proof.
  intros Hs.
  assert (∀ a b : list PlanNode,
            (∀ x, is_Some (a !! x) → is_Some (b !! x)) → length a ≤ length b) as Hle.
  { intros a b Hab. destruct (decide (length a ≤ length b)) as [|Hgt]; [done|].
    assert (is_Some (a !! length b)) as Hsome by (apply lookup_lt_is_Some; lia).
    apply Hab, lookup_lt_is_Some in Hsome. lia. }
  apply Nat.le_antisymm; apply Hle; intros x [n Hn]; specialize (Hs x);
    rewrite Hn in Hs; simpl in Hs.
  - destruct (h2 !! x); [by eexists|discriminate].
  - destruct (h1 !! x); [by eexists|discriminate].
Qed.

(** The walk reads the predecessors of the nodes and nothing else. *)
Lemma walk_sameShape h1 h2 :
  sameShape h1 h2 → ∀ fuel x st, walk fuel h1 x st = walk fuel h2 x st.
Proof.
  intros Hs fuel. induction fuel as [|k IH]; intros x st; [done|]. simpl.
  destruct (decide (x ∈ st.1)); [done|].
  pose proof (sameShape_predecessors h1 h2 x Hs) as Hp.
  destruct (h1 !! x) as [n1|], (h2 !! x) as [n2|]; simpl in Hp; try discriminate; [|done].
  injection Hp as ->.
  assert (∀ l st0, foldl (λ acc q, walk k h1 q acc) st0 l
                   = foldl (λ acc q, walk k h2 q acc) st0 l) as Hfold.
  { intros l. induction l as [|q l IHl]; intros st0; simpl; [done|]. by rewrite IH, IHl. }
  by rewrite Hfold.
Qed.

Lemma bottomUpOrder_sameShape h1 h2 roots :
  sameShape h1 h2 → bottomUpOrder h1 roots = bottomUpOrder h2 roots.
Proof.
  intros Hs. unfold bottomUpOrder. rewrite (sameShape_length h1 h2 Hs).
  generalize (∅ : gset Ptr, [] : list Ptr).
  induction (elements roots) as [|r l IH]; intros st; [done|].
  cbn [foldl]. by rewrite (walk_sameShape h1 h2 Hs), IH.
Qed.

Lemma rendering_sameShape title h1 h2 order :
  sameShape h1 h2 → rendering title h1 order = rendering title h2 order.
Proof.
  intros Hs. unfold rendering.
  assert (nodeStatements h1 order = nodeStatements h2 order) as ->.
  { unfold nodeStatements. apply list_fmap_ext. intros _ x _.
    by rewrite (sameShape_idOf h1 h2 x Hs). }
  assert (edgeLines h1 order = edgeLines h2 order) as ->; [|done].
  unfold edgeLines. induction order as [|x order IH]; [done|].
  change (x :: order) with ([x] ++ order). rewrite !bind_app, IH. f_equal.
  simpl. rewrite !app_nil_r. pose proof (Hs x) as Hx.
  destruct (h1 !! x) as [n1|], (h2 !! x) as [n2|]; simpl in Hx; try discriminate; [|done].
  injection Hx as -> ->. apply list_fmap_ext. intros _ q _.
  by rewrite (sameShape_idOf h1 h2 q Hs).
Qed.

(** X17: [Format] reads the identifiers and the predecessors of the nodes
    and the roots of the plan, and nothing else: on two stores that agree on
    these it writes the same text, whatever the specs, bounds, variants,
    successors and resources are. *)
Theorem Format_reads_ids_and_predecessors (f : formatter) (out : string)
    (s1 s2 : Store) (ps1 ps2 : PlanSpec) :
  sameShape (nodes s1) (nodes s2) →
  plans s1 !! p f = Some ps1 →
  plans s2 !! p f = Some ps2 →
  Roots ps1 = Roots ps2 →
  closedb (nodes s1) = true →
  ∃ text, runFormat f out s1 = Ret (out +:+ text, s1)
          ∧ runFormat f out s2 = Ret (out +:+ text, s2).
Proof.
  intros Hs Hps1 Hps2 Hroots Hc. eexists. split.
  - apply (runFormat_returns f out s1 ps1 Hps1). intros x n q _ Hn Hq.
    by eapply closedb_lookup.
  - rewrite (runFormat_returns f out s2 ps2 Hps2).
    + by rewrite Hroots, (bottomUpOrder_sameShape _ _ _ Hs), (rendering_sameShape _ _ _ _ Hs).
    + intros x n2 q _ Hn2 Hq.
      pose proof (sameShape_predecessors _ _ x Hs) as Hp. rewrite Hn2 in Hp.
      destruct (nodes s1 !! x) as [n1|] eqn:Hn1; [|discriminate].
      injection Hp as Hp. rewrite <- Hp in Hq.
      destruct (closedb_lookup _ _ _ _ Hc Hn1 Hq) as [m Hm].
      pose proof (Hs q) as Hsq. rewrite Hm in Hsq.
      destruct (nodes s2 !! q); [by eexists|discriminate].
Qed.

Lemma bottomUpOrder_single h x n :
  h !! x = Some n → Predecessors n = [] → bottomUpOrder h {[x]} = [x].
Proof.
  intros Hn Hpreds. unfold bottomUpOrder. rewrite elements_singleton.
  cbn [foldl walk]. simpl. rewrite decide_False by apply not_elem_of_empty.
  by rewrite Hn, Hpreds.
Qed.

(** X18: a plan whose only root is a node made by [CreatePhysicalNode] is a
    graph of that one node: the conversion rule leaves the node alone, the
    validation returns what the hook of its spec returns for its identifier
    (no error without a hook), and [Format] writes the block with the one
    statement of its identifier. *)
Theorem CreatePhysicalNode_alone id spec (plan : SpecPtr) s ps x title out :
  nodes s !! x = Some (Physical (CreatePhysicalNode id spec)) →
  plans s !! plan = Some ps →
  Roots ps = {[x]} →
  physicalConverterRule.Rewrite x s = Ret ((x, false, None), s)
  ∧ validatePhysicalPlan plan s
    = Ret (match PostPhysicalValidate (dynSpec spec) with
           | Some validator => validator id
           | None => None
           end, s)
  ∧ runFormat (Formatted plan [FormatTitle title]) out s
    = Ret (out +:+ LF +:+ "digraph " +:+ title +:+ " {" +:+ LF
           +:+ "  " +:+ id +:+ LF +:+ LF +:+ "}" +:+ LF, s).
Proof.
  intros Hn Hps Hroots.
  pose proof (bottomUpOrder_single (nodes s) x _ Hn eq_refl) as Horder.
  split; [|split].
  - unfold physicalConverterRule.Rewrite. by rewrite Hn.
  - rewrite (validatePhysicalPlan_run _ _ _ Hps), Hroots, Horder. simpl.
    rewrite Hn. simpl. unfold validateNode, asPostPhysicalValidator. simpl.
    by destruct (PostPhysicalValidate (dynSpec spec)) as [validator|]; [destruct (validator id)|].
  - rewrite (runFormat_returns _ out s ps); [|done|].
    + rewrite Hroots, Horder. unfold rendering, nodeStatements, edgeLines, idOf. simpl.
      rewrite Hn. simpl. unfold joinLines. simpl. by rewrite !append_assoc.
    + rewrite Hroots, Horder. intros y n q ->%list_elem_of_singleton Hy Hq.
      assert (n = Physical (CreatePhysicalNode id spec)) as -> by congruence.
      by apply elem_of_nil in Hq.
Qed.

(** ** The further properties at work on the sample graphs *)

Lemma ReplaceSpec_own_spec_witness :
  ReplaceSpec capable (CreatePhysicalNode "P" (mkPhysicalProcedureSpec capable (λ _, (1%Z, 1%Z))))
  = (CreatePhysicalNode "P" (mkPhysicalProcedureSpec capable (λ _, (1%Z, 1%Z))), None).
Proof.
  apply (ReplaceSpec_own_spec
           (CreatePhysicalNode "P" (mkPhysicalProcedureSpec capable (λ _, (1%Z, 1%Z))))).
  reflexivity.
Defined.

Lemma Rewrite_frame_witness :
  ∃ r s', physicalConverterRule.Rewrite 1 store_chain = Ret (r, s')
    ∧ plans s' = plans store_chain
    ∧ length (nodes store_chain) ≤ length (nodes s') ≤ S (length (nodes store_chain))
    ∧ ∀ q n, nodes store_chain !! q = Some n →
        ∃ n', nodes s' !! q = Some n'
              ∧ ID n' = ID n ∧ procedureSpec n' = procedureSpec n ∧ Bounds n' = Bounds n
              ∧ isPhysical n' = isPhysical n ∧ isLogical n' = isLogical n.
Proof.
  eexists _, _. split; [reflexivity|].
  eapply (Rewrite_frame 1 store_chain). reflexivity.
Defined.

Lemma converted_node_methods_witness :
  ∃ s' ppn,
    physicalConverterRule.Rewrite 1 store_chain = Ret ((4, true, None), s')
    ∧ nodes s' !! 4 = Some (Physical ppn)
    ∧ PhysicalPlanNode_Kind ppn = "range"
    ∧ PhysicalPlanNode_Cost ppn = (λ _, (1%Z, 1%Z))
    ∧ procedureSpec (Physical ppn) = capable
    ∧ validateNode (Physical ppn) = None
    ∧ ReplaceSpec capable ppn = (ppn, None).
Proof.
  eassert _ as Hrun.
  { eapply (converted_node_methods 1 store_chain
              (mkLogicalPlanNode (mkEdges [0] [2]) (Some (1, 2)%Z) "S1" capable)
              (λ _, (1%Z, 1%Z))); reflexivity. }
  exact Hrun.
Defined.

Lemma validatePhysicalPlan_nil_iff_witness :
  (∃ r, validatePhysicalPlan 0 store_chain = Ret (r, store_chain))
  ∧ (validatePhysicalPlan 0 store_chain = Ret (None, store_chain)
     ↔ ∀ x n, reachable (nodes store_chain) {[2]} x → nodes store_chain !! x = Some n →
         passes_validation n).
Proof.
  eassert _ as Hrun.
  { eapply (validatePhysicalPlan_nil_iff 0 store_chain (mkPlanSpec {[2]} (mkResources 4 0))).
    reflexivity. }
  exact Hrun.
Defined.

Lemma validatePhysicalPlan_error_witness :
  ∃ ps x n, plans store_AB !! 0 = Some ps
    ∧ reachable (nodes store_AB) (Roots ps) x ∧ nodes store_AB !! x = Some n
    ∧ ((∃ validator, PostPhysicalValidate (procedureSpec n) = Some validator
                     ∧ validator (ID n) = Some "invalid")
       ∨ (PostPhysicalValidate (procedureSpec n) = None ∧ isPhysical n = false
          ∧ "invalid" = notConverted (ID n) ∧ names "invalid" (ID n))).
Proof.
  apply (validatePhysicalPlan_error 0 store_AB "invalid" store_AB). by vm_compute.
Defined.

Lemma Plan_error_provenance_witness :
  (∃ ts, heuristicPlanner_Plan 10 (heuristic (NewPhysicalPlanner [] [])) 0 store_L
         = Ret ((ts, Some (notConverted "L")), store_L))
  ∨ ∃ transformedSpec s1,
      heuristicPlanner_Plan 10 (heuristic (NewPhysicalPlanner [] [])) 0 store_L
      = Ret ((Some transformedSpec, None), s1)
      ∧ (BottomUpWalk transformedSpec ComputeBounds_default s1
         = Ret (Some (notConverted "L"), store_L)
         ∨ ∃ s2, BottomUpWalk transformedSpec ComputeBounds_default s1 = Ret (None, s2)
                 ∧ disableValidation (NewPhysicalPlanner [] []) = false
                 ∧ (CheckIntegrity_model transformedSpec s2
                    = Ret (Some (notConverted "L"), store_L)
                    ∨ ∃ s3, CheckIntegrity_model transformedSpec s2 = Ret (None, s3)
                            ∧ validatePhysicalPlan transformedSpec s3
                              = Ret (Some (notConverted "L"), store_L))).
Proof.
  apply (Plan_error_provenance (heuristicPlanner_Plan 10) ComputeBounds_default
           CheckIntegrity_model (NewPhysicalPlanner [] []) 0 store_L).
  by vm_compute.
Defined.

Lemma Plan_succeeds_iff_witness :
  (∃ s', planWith [] 0 store_P = Ret ((Some 0, None), s'))
  ↔ ∀ x n, reachable (nodes store_P) {[0]} x → nodes store_P !! x = Some n →
      passes_validation n.
Proof.
  eassert _ as Hrun.
  { eapply (Plan_succeeds_iff (heuristicPlanner_Plan 10) ComputeBounds_default
              CheckIntegrity_model (NewPhysicalPlanner [] []) 0 store_P 0 store_P
              store_P store_P (mkPlanSpec {[0]} resources0));
      [reflexivity|by vm_compute|by vm_compute|by vm_compute|reflexivity]. }
  exact Hrun.
Defined.

Lemma Plan_quotas_nonzero_witness :
  ∃ s' output, planWith [] 0 store_P = Ret ((Some 0, None), s')
    ∧ plans s' !! 0 = Some output
    ∧ (MemoryBytesQuota (Resources output) = 0%Z
       → defaultMemoryLimit (NewPhysicalPlanner [] []) = 0%Z)
    ∧ (ConcurrencyQuota (Resources output) = 0%Z → Roots output = ∅).
Proof.
  eexists. 
  destruct (Plan_quotas_nonzero (heuristicPlanner_Plan 10) ComputeBounds_default
              CheckIntegrity_model (NewPhysicalPlanner [] []) 0 store_P 0 _
              ltac:(vm_compute; reflexivity)) as (output & Hout & Hq).
  exists output. split; [vm_compute; reflexivity|]. by split.
Defined.

Lemma Plan_writes_only_quotas_witness :
  ∃ s', planWith [] 0 store_P = Ret ((Some 0, None), s')
    ∧ nodes s' = nodes store_P
    ∧ length (plans s') = length (plans store_P).
Proof.
  eexists. split; [vm_compute; reflexivity|].
  destruct (Plan_writes_only_quotas (heuristicPlanner_Plan 10) ComputeBounds_default
              CheckIntegrity_model (NewPhysicalPlanner [] []) 0 store_P 0 _
              ltac:(vm_compute; reflexivity))
    as (s1 & s2 & s3 & ps & output & _ & _ & _ & _ & _ & _ & _ & _ & _).
  by vm_compute.
Defined.

Lemma Format_empty_plan_witness :
  runFormat (Formatted 1 []) "" store_two_plans
  = Ret ("" +:+ LF +:+ "digraph " +:+ "plan" +:+ " {" +:+ LF +:+ LF +:+ "}" +:+ LF,
         store_two_plans).
Proof.
  apply (Format_empty_plan (Formatted 1 []) "" store_two_plans (mkPlanSpec ∅ resources0));
    reflexivity.
Defined.

Lemma Format_shows_reachable_witness :
  ∃ text, runFormat (Formatted 0 []) "" store_chain = Ret ("" +:+ text, store_chain)
    ∧ ∀ x n, reachable (nodes store_chain) {[2]} x → nodes store_chain !! x = Some n →
        names text (("  " +:+ ID n) +:+ LF)
        ∧ ∀ q m, q ∈ Predecessors n → nodes store_chain !! q = Some m →
            names text (("  " +:+ ID m +:+ " -> " +:+ ID n) +:+ LF).
Proof.
  eassert _ as Hrun.
  { eapply (Format_shows_reachable (Formatted 0 []) "" store_chain
              (mkPlanSpec {[2]} (mkResources 4 0))); reflexivity. }
  exact Hrun.
Defined.

Lemma Format_reads_ids_and_predecessors_witness :
  ∃ text, runFormat (Formatted 0 []) "" store_chain = Ret ("" +:+ text, store_chain)
          ∧ runFormat (Formatted 0 []) "" store_chain_bare = Ret ("" +:+ text, store_chain_bare).
Proof.
  eassert _ as Hrun.
  { eapply (Format_reads_ids_and_predecessors (Formatted 0 []) "" store_chain store_chain_bare
              (mkPlanSpec {[2]} (mkResources 4 0)) (mkPlanSpec {[2]} (mkResources 0 9)));
      [|reflexivity|reflexivity|reflexivity|reflexivity].
    intros x. do 4 (destruct x as [|x]; [reflexivity|]). reflexivity. }
  exact Hrun.
Defined.

Lemma CreatePhysicalNode_alone_witness :
  physicalConverterRule.Rewrite 0 store_P = Ret ((0, false, None), store_P)
  ∧ validatePhysicalPlan 0 store_P = Ret (None, store_P)
  ∧ runFormat (Formatted 0 [FormatTitle "one"]) "" store_P
    = Ret ("" +:+ LF +:+ "digraph " +:+ "one" +:+ " {" +:+ LF
           +:+ "  " +:+ "P" +:+ LF +:+ LF +:+ "}" +:+ LF, store_P).
Proof.
  eassert _ as Hrun.
  { eapply (CreatePhysicalNode_alone "P" (mkPhysicalProcedureSpec capable (λ _, (1%Z, 1%Z)))
              0 store_P (mkPlanSpec {[0]} resources0) 0 "one" ""); reflexivity. }
  exact Hrun.
Defined.
